(** * Taxonomy import pipeline ([import.js])

    A shallow embedding of the three source adapters of [import.js]
    ([importLaddr], [importMatchmaker], [importDemocracyLab]), of the
    JavaScript string and object operations they are written with, and of
    the serialisation step [TOML.stringify(sortKeys(doc, { deep: true }))].

    Conventions.
    - A JavaScript string is a [string]; a character stands for one code
      unit below 256, so [\s], line terminators and [toLowerCase] are the
      ECMAScript ones restricted to that range.
    - A JavaScript object used as a map is an association list kept in
      own-property order (array-index keys first, ascending, then the other
      keys in creation order).  Copies made by a spread or an object
      literal define own properties whatever the key; the two assignments
      [tags[tag] = ...] and [tagData[fieldName] = ...] go through the
      [__proto__] setter when the key is [__proto__], and are modelled so.
    - [console.warn] is a list of messages, [tree.writeChild] a list of
      (path, content) pairs in call order, and a rejected promise an
      [outcome]. *)

From Stdlib Require Import String Ascii List Bool NArith Arith Lia.
From Stdlib Require Import Permutation Sorted DecimalString.
Import ListNotations.
Local Open Scope list_scope.
Local Open Scope string_scope.

(* ================================================================== *)
(** * JavaScript strings *)

Module JsString.

Definition code (c : ascii) : N := N_of_ascii c.

(** [\s] of a regular expression. *)
Definition is_space (c : ascii) : bool :=
  let n := code c in
  ((9 <=? n) && (n <=? 13) || (n =? 32) || (n =? 160))%N.

(** Line terminators, which [.] does not match. *)
Definition is_line_terminator (c : ascii) : bool :=
  let n := code c in ((n =? 10) || (n =? 13))%N.

Definition lower_char (c : ascii) : ascii :=
  let n := code c in
  if ((65 <=? n) && (n <=? 90)
      || (192 <=? n) && (n <=? 222) && negb (n =? 215))%N
  then ascii_of_N (n + 32) else c.

(** [s.toLowerCase()] *)
Fixpoint toLowerCase (s : string) : string :=
  match s with
  | EmptyString => EmptyString
  | String c r => String (lower_char c) (toLowerCase r)
  end.

(** All the pieces of [s] between occurrences of the character [sep]. *)
Fixpoint pieces (sep : ascii) (s : string) : list string :=
  match s with
  | EmptyString => [EmptyString]
  | String c r =>
      if Ascii.eqb c sep then EmptyString :: pieces sep r
      else match pieces sep r with
           | h :: t => String c h :: t
           | [] => [String c EmptyString]
           end
  end.

(** [s.split(sep, limit)]: the string is cut at every separator and the
    array of pieces is truncated to [limit] elements. *)
Definition split (sep : ascii) (limit : nat) (s : string) : list string :=
  firstn limit (pieces sep s).

Fixpoint skip_spaces (s : string) : string :=
  match s with
  | String c r => if is_space c then skip_spaces r else s
  | EmptyString => s
  end.

Fixpoint no_line_terminator (s : string) : bool :=
  match s with
  | EmptyString => true
  | String c r => negb (is_line_terminator c) && no_line_terminator r
  end.

(** Does [/\s*\(.*$/] match starting at the head of [s]? *)
Definition annotation_here (s : string) : bool :=
  match skip_spaces s with
  | String "("%char r => no_line_terminator r
  | _ => false
  end.

(** [s.replace(/\s*\(.*$/, '')]: the leftmost match runs to the end of
    the string, so what is left is the text before it. *)
Fixpoint strip_annotation (s : string) : string :=
  if annotation_here s then EmptyString
  else match s with
       | EmptyString => EmptyString
       | String c r => String c (strip_annotation r)
       end.

(** [s.replace(/\s+/, r)]: the pattern has no [g] flag, the leftmost
    (maximal) run of white space is replaced and the scan stops there. *)
Fixpoint replace_space_run (r : string) (s : string) : string :=
  match s with
  | EmptyString => EmptyString
  | String c t =>
      if is_space c then r ++ skip_spaces t
      else String c (replace_space_run r t)
  end.

(** [s.replace(/\(s\)/, 's')]: the leftmost [(s)] only. *)
Fixpoint replace_optional_s (s : string) : string :=
  match s with
  | String "("%char (String "s"%char (String ")"%char t)) => String "s"%char t
  | String c t => String c (replace_optional_s t)
  | EmptyString => EmptyString
  end.

(** The replacement that the words "every white-space run" describe (the
    pattern with a [g] flag).  The code never calls it; the adapters'
    results are compared with it.  [in_run] tells that the previous
    character was white space. *)
Fixpoint replace_space_runs_from (in_run : bool) (r : string) (s : string)
  : string :=
  match s with
  | EmptyString => EmptyString
  | String c t =>
      if is_space c
      then (if in_run then EmptyString else r) ++ replace_space_runs_from true r t
      else String c (replace_space_runs_from false r t)
  end.

Definition replace_every_space_run : string -> string -> string :=
  replace_space_runs_from false.

End JsString.

(* ================================================================== *)
(** * JavaScript objects *)

Module JsObject.

(** An object with values in [A], in own-property order. *)
Definition obj (A : Type) : Type := list (string * A).

Section Ops.
Context {A : Type}.

(** [Object.keys(o)], the order of [for (k in o)] and of a spread. *)
Definition keys (o : obj A) : list string := map fst o.

(** [o[k]]; [None] is [undefined]. *)
Fixpoint get (k : string) (o : obj A) : option A :=
  match o with
  | [] => None
  | (k', v) :: r => if String.eqb k k' then Some v else get k r
  end.

Definition has (k : string) (o : obj A) : bool :=
  match get k o with Some _ => true | None => false end.

Fixpoint replace (k : string) (v : A) (o : obj A) : obj A :=
  match o with
  | [] => []
  | (k', v') :: r =>
      if String.eqb k k' then (k', v) :: r else (k', v') :: replace k v r
  end.

Fixpoint remove (k : string) (o : obj A) : obj A :=
  match o with
  | [] => []
  | (k', v') :: r =>
      if String.eqb k k' then remove k r else (k', v') :: remove k r
  end.

End Ops.

Definition is_digit (c : ascii) : bool :=
  let n := N_of_ascii c in ((48 <=? n) && (n <=? 57))%N.

Fixpoint all_digits (s : string) : bool :=
  match s with
  | EmptyString => true
  | String c r => is_digit c && all_digits r
  end.

Fixpoint decimal (acc : N) (s : string) : N :=
  match s with
  | EmptyString => acc
  | String c r => decimal (10 * acc + (N_of_ascii c - 48))%N r
  end.

(** The array index a key denotes, if it is the canonical decimal form of
    an integer below 2^32 - 1. *)
Definition array_index (k : string) : option N :=
  match k with
  | EmptyString => None
  | String c r =>
      if all_digits k && (negb (Ascii.eqb c "0") || String.eqb r "")
      then let n := decimal 0 k in
           if (n <? 4294967295)%N then Some n else None
      else None
  end.

Section Assignment.
Context {A : Type}.

(** Put a new array-index key at its place among the index keys. *)
Fixpoint insert_index (n : N) (k : string) (v : A) (o : obj A) : obj A :=
  match o with
  | [] => [(k, v)]
  | (k', v') :: r =>
      match array_index k' with
      | Some m => if (m <? n)%N then (k', v') :: insert_index n k v r
                  else (k, v) :: o
      | None => (k, v) :: o
      end
  end.

(** [o[k] = v] *)
Definition set (k : string) (v : A) (o : obj A) : obj A :=
  if has k o then replace k v o
  else match array_index k with
       | Some n => insert_index n k v o
       | None => (o ++ [(k, v)])%list
       end.

(** [Object.assign(target, src)], the copy a spread [{...src}] makes
    into the object literal being built. *)
Definition assign (target src : obj A) : obj A :=
  fold_left (fun acc kv => set (fst kv) (snd kv) acc) src target.

End Assignment.

End JsObject.

Import JsString JsObject.

(* ================================================================== *)
(** * Documents and their serialisation *)

(** The values of a raw record or of a normalized document: the absence
    marker [null], a string, or a nested mapping (numbers, booleans and
    arrays, which no rule of the adapters looks at, are left out). *)
#[warnings="-register-all"]
Inductive value : Type :=
| VNull : value
| VStr : string -> value
| VObj : list (string * value) -> value.

Definition is_null (v : value) : bool :=
  match v with VNull => true | _ => false end.

(** A template literal's [${x}]. *)
Definition template (x : option value) : string :=
  match x with
  | None => "undefined"
  | Some VNull => "null"
  | Some (VStr s) => s
  | Some (VObj _) => "[object Object]"
  end.

(** [x || null] *)
Definition or_null (x : option value) : value :=
  match x with
  | None => VNull
  | Some (VStr EmptyString) => VNull
  | Some v => v
  end.

(** [{...x}] of a possibly undefined object. *)
Definition spread {A : Type} (x : option (obj A)) : obj A :=
  match x with Some o => assign [] o | None => [] end.

(** The own properties of the wrapper of a string: its characters, under
    their indices from [i] on. *)
Fixpoint characters (i : nat) (s : string) : obj value :=
  match s with
  | EmptyString => []
  | String c r =>
      (NilZero.string_of_uint (Nat.to_uint i), VStr (String c EmptyString))
        :: characters (S i) r
  end.

(** [{...x}] of any value: the own properties of an object, the characters
    of a string, nothing of [null] or [undefined]. *)
Definition spread_value (x : option value) : obj value :=
  match x with
  | Some (VObj o) => assign [] o
  | Some (VStr s) => assign [] (characters 0 s)
  | Some VNull | None => []
  end.

(** An object that starts as [{}] and is assigned objects under computed
    keys: its own properties and, once the key [__proto__] has been
    assigned, the object that became its prototype. *)
Record keyed : Type := mkKeyed {
  own : obj (obj value);
  inherited : option (obj value)
}.

(** [{}] *)
Definition empty_object : keyed := mkKeyed [] None.

(** [o[k] = e] for an object [e]: the key [__proto__] sets the prototype
    and creates no property. *)
Definition assign_object (k : string) (e : obj value) (o : keyed) : keyed :=
  if String.eqb k "__proto__" then mkKeyed (own o) (Some e)
  else mkKeyed (set k e (own o)) (inherited o).

(** [for (const k in o)]: the own keys, then the keys of the prototype
    that no own property hides. *)
Definition for_in (o : keyed) : list string :=
  (keys (own o)
   ++ match inherited o with
      | Some p => filter (fun k => negb (has k (own o))) (keys p)
      | None => []
      end)%list.

(** [o[k]] for a key that [for...in] gives: the own property, or else the
    property of the prototype. *)
Definition read (k : string) (o : keyed) : option value :=
  match get k (own o) with
  | Some e => Some (VObj e)
  | None => match inherited o with
            | Some p => get k p
            | None => None
            end
  end.

(** ** [sort-keys] *)

Fixpoint insert_key (k : string) (l : list string) : list string :=
  match l with
  | [] => [k]
  | h :: t => if String.leb k h then k :: l else h :: insert_key k t
  end.

(** [keys.sort()]: the strings in ascending order of their code units. *)
Fixpoint sort (l : list string) : list string :=
  match l with
  | [] => []
  | h :: t => insert_key h (sort t)
  end.

(** Modelled from the spec: the [sort-keys] package is a dependency and its
    code is not among the sources.  The new object that receives the
    properties of [o], key by key in the order [ks]. *)
Definition receive {A : Type} (o : obj A) (result : obj A) (k : string)
  : obj A :=
  match get k o with
  | Some x => set k x result
  | None => result
  end.

Definition rebuild {A : Type} (o : obj A) (ks : list string) : obj A :=
  fold_left (receive o) ks [].

(** Modelled from the spec: [sortKeys(v, { deep: true })] of the [sort-keys]
    package, whose code is not among the sources.  The keys of a mapping
    are sorted ([Object.keys(object).sort()]) and a new object receives
    them in that order, the nested mappings being sorted the same way. *)
Fixpoint sortKeys_value (v : value) : value :=
  match v with
  | VObj o =>
      VObj (rebuild (map (fun kv => (fst kv, sortKeys_value (snd kv))) o)
                    (sort (keys o)))
  | _ => v
  end.

(** Modelled from the spec: [sortKeys(o, { deep: true })] on a document
    ([sort-keys] package, not among the sources). *)
Definition sortKeys (o : obj value) : obj value :=
  rebuild (map (fun kv => (fst kv, sortKeys_value (snd kv))) o) (sort (keys o)).

(** [a.join(sep)] *)
Fixpoint join (sep : string) (a : list string) : string :=
  match a with
  | [] => ""
  | [x] => x
  | x :: r => x ++ sep ++ join sep r
  end.

Definition nonempty {A : Type} (l : list A) : bool :=
  match l with [] => false | _ => true end.

(** How the promise of a run stands: pending, resolved with the tree that
    [tree.write()] finalizes, or rejected. *)
Inductive outcome : Type :=
| Pending : outcome
| Resolved (tree : list (string * string)) : outcome
| Rejected (err : string) : outcome.

(** What a run leaves: the [console.warn] messages, the [tree.writeChild]
    calls in order, and its promise. *)
Record run : Type := mkRun {
  warnings : list string;
  written : list (string * string);
  result : outcome
}.

(** What [axios.get] gives back: a rejection or the response's data. *)
Inductive response (A : Type) : Type :=
| RequestFailed (err : string) : response A
| Response (data : A) : response A.
Arguments RequestFailed {A} err.
Arguments Response {A} data.

(** A record of the [/tags] listing. *)
Record tag_record : Type := mkTag { Handle : string; Title : value }.

(** The events of the CSV parser's stream. *)
Inductive stream_event : Type :=
| Data (row : obj string) : stream_event
| End : stream_event
| Error (err : string) : stream_event.

(* ================================================================== *)
(** * Vocabulary of the statements *)

(** Two values hold the same fields with the same values: mappings may list
    their keys in another order, at every nesting level. *)
#[warnings="-register-all"]
Inductive same_fields : value -> value -> Prop :=
| same_null : same_fields VNull VNull
| same_str : forall s, same_fields (VStr s) (VStr s)
| same_obj : forall o1 o1' o2,
    Permutation o1 o1' ->
    Forall2 (fun a b => fst a = fst b /\ same_fields (snd a) (snd b)) o1' o2 ->
    same_fields (VObj o1) (VObj o2).

Fixpoint mem (k : string) (l : list string) : bool :=
  match l with
  | [] => false
  | h :: t => String.eqb k h || mem k t
  end.

Fixpoint distinct (l : list string) : bool :=
  match l with
  | [] => true
  | h :: t => negb (mem h t) && distinct t
  end.

(** A value is well formed when no mapping in it has a key twice, as is the
    case of every JavaScript object. *)
Fixpoint unique_keys (v : value) : bool :=
  match v with
  | VObj o => distinct (keys o) && forallb (fun kv => unique_keys (snd kv)) o
  | _ => true
  end.

(** The document without the fields that hold the absence marker. *)
Definition without_nulls (o : obj value) : obj value :=
  filter (fun kv => negb (is_null (snd kv))) o.

(** The order of [sort]. *)
Definition le_key (a b : string) : Prop := String.leb a b = true.

(** The keys of [o] whose value passes the test [P]. *)
Definition kept {A : Type} (P : A -> bool) (o : obj A) (k : string) : bool :=
  match get k o with Some x => P x | None => false end.

(** Own-property order: the array-index keys, ascending, then the others. *)
Definition above {A : Type} (n : N) (o : obj A) : Prop :=
  Forall (fun kv => match array_index (fst kv) with
                    | Some m => (n <= m)%N
                    | None => True
                    end) o.

Inductive ordered {A : Type} : obj A -> Prop :=
| ordered_nil : ordered []
| ordered_index : forall k v n r,
    array_index k = Some n -> above n r -> ordered r ->
    ordered ((k, v) :: r)
| ordered_name : forall k v r,
    array_index k = None ->
    Forall (fun kv => array_index (fst kv) = None) r ->
    ordered ((k, v) :: r).

Fixpoint has_dot (s : string) : bool :=
  match s with
  | EmptyString => false
  | String c r => Ascii.eqb c "." || has_dot r
  end.

(** The field name as the words of the description give it: every run of
    white space becomes one underscore. *)
Definition fieldName_described (columnName : string) : string :=
  toLowerCase (replace_every_space_run "_" (strip_annotation columnName)).

(** The category directory as the words of the description give it. *)
Definition categoryDir_described (category : string) : string :=
  toLowerCase (replace_optional_s (replace_every_space_run "-" category)).

(** The path of a handle cut at its first [.] only. *)
Fixpoint after_first_dot (s : string) : option string :=
  match s with
  | EmptyString => None
  | String c r => if Ascii.eqb c "." then Some r else after_first_dot r
  end.

(** Renderings of keys and strings used to run the adapters on examples. *)
Definition bare_key (k : string) : string := k.
Definition quoted (s : string) : string :=
  String (ascii_of_nat 34) (s ++ String (ascii_of_nat 34) "").

(** Inputs on which the statements are run. *)
Definition cloud_listed : obj value :=
  [("title", VStr "Cloud");
   ("links", VObj [("wiki", VStr "w"); ("home", VStr "h")])].

Definition cloud_relisted : obj value :=
  [("links", VObj [("home", VStr "h"); ("wiki", VStr "w")]);
   ("title", VStr "Cloud")].

Definition water_row : obj value :=
  [("canonical_name", VStr "water"); ("category", VStr "Health Care(s)");
   ("parent", VStr ""); ("caption", VStr "Water")].

Definition clean_water : obj (obj value) :=
  [("clean-water",
    [("class_name", VStr "CleanWater"); ("description", VStr "...")])].

Definition down (A : Type) (url : string) : response A :=
  RequestFailed "ECONNREFUSED".

Definition cloud_twice : list tag_record :=
  [mkTag "tech.cloud" (VStr "Cloud"); mkTag "tech.cloud" (VStr "The cloud")].

Section Pipeline.

(** ** [@iarna/toml]

    The package is a dependency and its code is not among the sources.
    How it quotes a key and a string is left open: the adapters are
    defined, and the statements proved, for any two such functions. *)
Variable stringifyKey : string -> string.
Variable stringifyString : string -> string.

(** Modelled from the spec: which values [@iarna/toml] writes on one line
    (scalars and the empty table). *)
Definition isInline (v : value) : bool :=
  match v with
  | VObj (_ :: _) => false
  | _ => true
  end.

(** Modelled from the spec: the text of a one-line value. *)
Definition stringifyInline (v : value) : string :=
  match v with
  | VStr s => stringifyString s
  | _ => "{ }"
  end.

(** Modelled from the spec: the properties written on one line. *)
Definition inlineKeys (o : obj value) : obj value :=
  filter (fun kv => isInline (snd kv)) o.

(** Modelled from the spec: the [key = value] lines of a table; a property
    whose value is [null] gets no line. *)
Definition inlineLines (indent : string) (o : obj value) : list string :=
  flat_map (fun kv =>
              if is_null (snd kv) then []
              else [indent ++ stringifyKey (fst kv) ++ " = "
                      ++ stringifyInline (snd kv)])
           (inlineKeys o).

(** Modelled from the spec: the text of a table of [@iarna/toml]'s
    [stringify]: its [key = value] lines, an empty line, then its
    sub-tables, each under a header [[prefix.key]] when it has lines of its
    own, indented under a table that has some. *)
Fixpoint stringifyTable (prefix indent : string) (v : value) {struct v}
  : string :=
  match v with
  | VObj o =>
      let lines := inlineLines indent o in
      let result := if nonempty lines then (lines ++ [""])%list else lines in
      let complexIndent :=
        if negb (String.eqb prefix "") && nonempty (inlineKeys o)
        then indent ++ "  " else "" in
      let tables :=
        flat_map (fun kv =>
                    if isInline (snd kv) then []
                    else
                      let fullKey := prefix ++ stringifyKey (fst kv) in
                      let header :=
                        match snd kv with
                        | VObj o' =>
                            if nonempty (inlineKeys o')
                            then complexIndent ++ "[" ++ fullKey ++ "]"
                                   ++ String "010" ""
                            else ""
                        | _ => ""
                        end in
                      [header ++ stringifyTable (fullKey ++ ".")
                                   complexIndent (snd kv)])
                 o in
      join (String "010" "") (result ++ tables)%list
  | _ => ""
  end.

(** Modelled from the spec: [TOML.stringify(doc)]. *)
Definition TOML_stringify (doc : obj value) : string :=
  stringifyTable "" "" (VObj doc).

(** [TOML.stringify(sortKeys(doc, { deep: true }))] *)
Definition serialize (doc : obj value) : string :=
  TOML_stringify (sortKeys doc).

(* ================================================================ *)
(** * Handle-prefixed adapter: [importLaddr] *)

(** The address [importLaddr] asks, [`http://${source}/tags`]; the query
    [format=json] is fixed and [axios_get] below stands for the request
    with it, giving the [data.data] of the response. *)
Definition laddr_url (source : option string) : string :=
  "http://" ++ template (option_map VStr source) ++ "/tags".

Record organized : Type := mkOrganized {
  tagsByPrefix : obj keyed;
  warned : list string;
  tagsCount : nat
}.

(** [const [prefix, tag] = Handle.split('.', 2)] *)
Definition handle_prefix (handle : string) : string :=
  hd "" (split "." 2 handle).
Definition handle_tag (handle : string) : option string :=
  nth_error (split "." 2 handle) 1.

Definition unprefixed_warning (handle : string) : string :=
  "skipping unprefixed tag: " ++ handle.
Definition unhandled_warning (prefix : string) : string :=
  "skipping unhandled tag prefix: " ++ prefix.

(** One turn of the loop that loads and organizes the tags. *)
Definition organize_tag (st : organized) (r : tag_record) : organized :=
  let prefix := handle_prefix (Handle r) in
  match handle_tag (Handle r) with
  | None | Some EmptyString =>
      mkOrganized (tagsByPrefix st)
        (warned st ++ [unprefixed_warning (Handle r)])%list
        (tagsCount st)
  | Some tag =>
      if String.eqb prefix "event" then st
      else if negb (String.eqb prefix "tech")
              && negb (String.eqb prefix "topic")
      then mkOrganized (tagsByPrefix st)
             (warned st ++ [unhandled_warning prefix])%list
             (tagsCount st)
      else
        let byPrefix :=
          if has prefix (tagsByPrefix st) then tagsByPrefix st
          else set prefix empty_object (tagsByPrefix st) in
        let tags := match get prefix byPrefix with
                    | Some t => t | None => empty_object end in
        mkOrganized
          (set prefix
             (assign_object tag
                [("handle", VStr (Handle r)); ("title", Title r)] tags)
             byPrefix)
          (warned st)
          (S (tagsCount st))
  end.

Definition organize (data : list tag_record) : organized :=
  fold_left organize_tag data (mkOrganized [] [] 0).

(** The loop that builds the tree: the [tree.writeChild] calls. *)
Definition laddr_tree (byPrefix : obj keyed) : list (string * string) :=
  flat_map (fun prefix =>
              let tags := match get prefix byPrefix with
                          | Some t => t | None => empty_object end in
              map (fun tag =>
                     let tagData :=
                       set "handle" VNull (spread_value (read tag tags)) in
                     (prefix ++ "/" ++ tag ++ ".toml", serialize tagData))
                  (for_in tags))
           (keys byPrefix).

Definition importLaddr (axios_get : string -> response (list tag_record))
           (source : option string) : run :=
  match axios_get (laddr_url source) with
  | RequestFailed err => mkRun [] [] (Rejected err)
  | Response data =>
      let st := organize data in
      let tree := laddr_tree (tagsByPrefix st) in
      mkRun (warned st) tree (Resolved tree)
  end.

(* ================================================================ *)
(** * Flat-keyed adapter: [importMatchmaker] *)

Definition matchmaker_default : string :=
  "https://github.com/designforsf/brigade-matchmaker/files/2563599/all_json.txt".

(** [if (!source) source = ...] *)
Definition or_default (default : string) (source : option string) : string :=
  match source with
  | None | Some EmptyString => default
  | Some s => s
  end.

Definition matchmaker_url : option string -> string :=
  or_default matchmaker_default.

Definition matchmaker_tree (data : obj (obj value)) : list (string * string) :=
  map (fun tag =>
         let tagData := set "class_name" VNull (spread (get tag data)) in
         (tag ++ ".toml", serialize tagData))
      (keys data).

Definition importMatchmaker
           (axios_get : string -> response (obj (obj value)))
           (source : option string) : run :=
  match axios_get (matchmaker_url source) with
  | RequestFailed err => mkRun [] [] (Rejected err)
  | Response data =>
      let tree := matchmaker_tree data in
      mkRun [] tree (Resolved tree)
  end.

(* ================================================================ *)
(** * CSV adapter: [importDemocracyLab] *)

Definition democracylab_default : string :=
  "https://raw.githubusercontent.com/DemocracyLab/CivicTechExchange/master/common/models/Tag_definitions.csv".

Definition democracylab_url : option string -> string :=
  or_default democracylab_default.

(** The field name of a column. *)
Definition fieldName (columnName : string) : string :=
  toLowerCase (replace_space_run "_" (strip_annotation columnName)).

(** [tagData[fieldName] = x] for a string [x]: the key [__proto__] goes to
    the setter, which leaves the object as it is. *)
Definition assign_string (fieldName x : string) (tagData : obj value)
  : obj value :=
  if String.eqb fieldName "__proto__" then tagData
  else set fieldName (VStr x) tagData.

(** The ['data'] handler's [tagData] of a row. *)
Definition row_tagData (row : obj string) : obj value :=
  fold_left (fun tagData columnName =>
               match get columnName row with
               | Some x => assign_string (fieldName columnName) x tagData
               | None => tagData
               end)
            (keys row) [].

(** The directory of a category. *)
Definition categoryDir (category : string) : string :=
  toLowerCase (replace_optional_s (replace_space_run "-" category)).

(** The document of a tag: the object literal given to [sortKeys]. *)
Definition tag_document (tagData : obj value) : obj value :=
  set "caption" (or_null (get "caption" tagData))
    (set "subcategory" (or_null (get "subcategory" tagData))
       (set "parent" (or_null (get "parent" tagData))
          (set "canonical_name" VNull
             (set "category" VNull (assign [] tagData))))).

(** One turn of the ['end'] handler's loop; [None] when
    [tagData.category.replace] throws. *)
Definition tag_entry (tagData : obj value) : option (string * string) :=
  match get "category" tagData with
  | Some (VStr category) =>
      Some (categoryDir category ++ "/"
              ++ template (get "canonical_name" tagData) ++ ".toml",
            serialize (tag_document tagData))
  | _ => None
  end.

(** The loop: the writes made, and whether it ran to its end. *)
Fixpoint write_tags (tags : list (obj value))
  : list (string * string) * bool :=
  match tags with
  | [] => ([], true)
  | tagData :: rest =>
      match tag_entry tagData with
      | Some w => let '(ws, ok) := write_tags rest in (w :: ws, ok)
      | None => ([], false)
      end
  end.

Record parsing : Type := mkParsing {
  tags : list (obj value);
  tree : list (string * string);
  promise : outcome
}.

(** [resolve] and [reject] settle a promise once. *)
Definition settle (p new : outcome) : outcome :=
  match p with Pending => new | _ => p end.

(** The three handlers put on the parser's stream. *)
Definition on_event (st : parsing) (e : stream_event) : parsing :=
  match e with
  | Data row => mkParsing (tags st ++ [row_tagData row])%list (tree st) (promise st)
  | End =>
      let '(ws, ok) := write_tags (tags st) in
      let tree' := (tree st ++ ws)%list in
      mkParsing (tags st) tree'
        (if ok then settle (promise st) (Resolved tree') else promise st)
  | Error err => mkParsing (tags st) (tree st) (settle (promise st) (Rejected err))
  end.

Definition importDemocracyLab
           (axios_get : string -> response (list stream_event))
           (source : option string) : run :=
  let url := democracylab_url source in
  let log := ["downloading " ++ url] in
  match axios_get url with
  | RequestFailed err => mkRun log [] (Rejected err)
  | Response events =>
      let st := fold_left on_event events (mkParsing [] [] Pending) in
      mkRun log (tree st) (promise st)
  end.

(* ================================================================== *)
(** * Vocabulary about the adapters *)










(** The record passes the three tests of the loading loop. *)
Definition accepted (r : tag_record) : bool :=
  match handle_tag (Handle r) with
  | None | Some EmptyString => false
  | Some _ =>
      String.eqb (handle_prefix (Handle r)) "tech"
      || String.eqb (handle_prefix (Handle r)) "topic"
  end.

(** The tag of a record, [""] when there is none. *)
Definition tag_of (r : tag_record) : string :=
  match handle_tag (Handle r) with Some t => t | None => "" end.

Definition tag_path (r : tag_record) : string :=
  handle_prefix (Handle r) ++ "/" ++ tag_of r ++ ".toml".

(** Two records that fall on the same entry of [tagsByPrefix]. *)
Definition same_entry (r r' : tag_record) : bool :=
  String.eqb (handle_prefix (Handle r)) (handle_prefix (Handle r'))
  && String.eqb (tag_of r) (tag_of r').

(** The own property [tag] of [tagsByPrefix[prefix]]. *)
Definition entry_of (prefix tag : string) (byPrefix : obj keyed)
  : option (obj value) :=
  match get prefix byPrefix with
  | Some tags => get tag (own tags)
  | None => None
  end.

(** What an accepted record does to [tagsByPrefix]. *)
Definition store (prefix tag : string) (entry : obj value)
           (byPrefix : obj keyed) : obj keyed :=
  let byPrefix' :=
    if has prefix byPrefix then byPrefix
    else set prefix empty_object byPrefix in
  let tags := match get prefix byPrefix' with
              | Some t => t | None => empty_object end in
  set prefix (assign_object tag entry tags) byPrefix'.

Definition entry (r : tag_record) : obj value :=
  [("handle", VStr (Handle r)); ("title", Title r)].

(** [tagsByPrefix] holds each key once, files tags under the two accepted
    prefixes only, and a prototype it holds is an entry. *)
Definition well_keyed (byPrefix : obj keyed) : Prop :=
  NoDup (keys byPrefix)
  /\ forall prefix tags,
      get prefix byPrefix = Some tags ->
      NoDup (keys (own tags))
      /\ (forall p, inherited tags = Some p -> keys p = ["handle"; "title"])
      /\ (prefix = "tech" \/ prefix = "topic").

(** The tag of the record is not the key [__proto__]. *)
Definition ordinary (r : tag_record) : bool :=
  negb (String.eqb (tag_of r) "__proto__").

(** No accepted record of the listing has the tag [__proto__]. *)
Definition ordinary_listing (data : list tag_record) : bool :=
  forallb (fun r => negb (accepted r) || ordinary r) data.

(** [tagsByPrefix[prefix]], empty when there is none. *)
Definition tags_of (prefix : string) (byPrefix : obj keyed) : keyed :=
  match get prefix byPrefix with Some t => t | None => empty_object end.


(* ================================================================== *)
(** * Entry point: [importTaxonomy] and the handler's commit reference *)

(** [axios.get], at the type each adapter reads its response with. *)
Record axios : Type := mkAxios {
  get_tags : string -> response (list tag_record);
  get_json : string -> response (obj (obj value));
  get_stream : string -> response (list stream_event)
}.

Definition importTaxonomy (http : axios) (sourceType : string)
           (source : option string) : run :=
  if String.eqb sourceType "laddr" then importLaddr (get_tags http) source
  else if String.eqb sourceType "matchmaker"
  then importMatchmaker (get_json http) source
  else if String.eqb sourceType "democracylab"
  then importDemocracyLab (get_stream http) source
  else mkRun [] [] (Rejected "Unsupported source type").

(** [s.startsWith(p)] *)
Definition startsWith (p s : string) : bool := String.prefix p s.

(** The handler's [commitRef] of a non-empty [commitTo]. *)
Definition commitRef (commitTo : string) : string :=
  if String.eqb commitTo "HEAD" || startsWith "refs/" commitTo
  then commitTo
  else "refs/heads/" ++ commitTo.

(* ================================================================== *)
(** * Vocabulary of further statements *)

(** The record is an [event] tag, skipped without a word. *)
Definition silently_skipped (r : tag_record) : bool :=
  match handle_tag (Handle r) with
  | None | Some EmptyString => false
  | Some _ => String.eqb (handle_prefix (Handle r)) "event"
  end.

(** The number of white-space runs of a string; [in_run] tells that the
    previous character was white space. *)
Fixpoint space_runs_from (in_run : bool) (s : string) : nat :=
  match s with
  | EmptyString => 0
  | String c t =>
      if is_space c
      then (if in_run then 0 else 1) + space_runs_from true t
      else space_runs_from false t
  end.

Definition space_runs : string -> nat := space_runs_from false.

Fixpoint has_space (s : string) : bool :=
  match s with
  | EmptyString => false
  | String c t => is_space c || has_space t
  end.

Fixpoint has_paren (s : string) : bool :=
  match s with
  | EmptyString => false
  | String c t => Ascii.eqb c "(" || has_paren t
  end.

(** The value of the last column of a row whose header gives the field
    name [f]. *)
Definition last_value (f : string) (row : obj string) : option string :=
  fold_left (fun found kv =>
               if String.eqb (fieldName (fst kv)) f then Some (snd kv)
               else found)
            row None.

(** The row has a category to make a directory of. *)
Definition has_category (tagData : obj value) : bool :=
  match get "category" tagData with
  | Some (VStr _) => true
  | _ => false
  end.

Definition is_optional (k : string) : bool :=
  String.eqb k "parent" || String.eqb k "subcategory" || String.eqb k "caption".

Definition is_blank (v : value) : bool :=
  match v with VStr EmptyString => true | _ => false end.

(** The fields of a row that its document keeps. *)
Definition kept_field (kv : string * value) : bool :=
  negb (String.eqb (fst kv) "category")
  && negb (String.eqb (fst kv) "canonical_name")
  && negb (is_optional (fst kv) && is_blank (snd kv)).

(* ================================================================== *)
(** * Facts about objects *)

Section ObjectFacts.
Context {A : Type}.
Implicit Types (o : obj A) (k : string) (v : A).

Lemma mem_In k l : mem k l = true <-> In k l.
Proof.
  induction l as [|h t IH]; simpl.
  - split; [discriminate | tauto].
  - rewrite orb_true_iff, IH, String.eqb_eq. intuition congruence.
Qed.

Lemma distinct_NoDup l : distinct l = true <-> NoDup l.
Proof.
  induction l as [|h t IH]; simpl.
  - split; [constructor | reflexivity].
  - rewrite andb_true_iff, negb_true_iff, IH, NoDup_cons_iff.
    rewrite <- (mem_In h t). destruct (mem h t); intuition congruence.
Qed.

Lemma get_None o k : get k o = None <-> ~ In k (keys o).
Proof.
  induction o as [|[k' v'] r IH]; simpl.
  - tauto.
  - destruct (String.eqb_spec k k') as [->|Hne].
    + split; [discriminate | intros H; exfalso; auto].
    + rewrite IH. intuition congruence.
Qed.

Lemma get_Some_In o k v : get k o = Some v -> In (k, v) o.
Proof.
  induction o as [|[k' v'] r IH]; simpl; [discriminate|].
  destruct (String.eqb_spec k k') as [->|Hne].
  - intros [= ->]. now left.
  - intros H. right. auto.
Qed.

Lemma In_get o k v : NoDup (keys o) -> In (k, v) o -> get k o = Some v.
Proof.
  induction o as [|[k' v'] r IH]; simpl; [tauto|].
  intros Hnd [Heq|Hin].
  - injection Heq as -> ->. now rewrite String.eqb_refl.
  - apply NoDup_cons_iff in Hnd as [Hnotin Hnd].
    destruct (String.eqb_spec k k') as [->|Hne].
    + exfalso. apply Hnotin. change k' with (fst (k', v)). now apply in_map.
    + auto.
Qed.

Lemma has_true o k : has k o = true <-> In k (keys o).
Proof.
  unfold has. destruct (get k o) eqn:E.
  - split; [intros _|reflexivity].
    apply get_Some_In in E. change k with (fst (k, a)). now apply in_map.
  - apply get_None in E. split; [discriminate | tauto].
Qed.

Lemma has_false o k : has k o = false <-> ~ In k (keys o).
Proof.
  rewrite <- has_true. destruct (has k o); intuition congruence.
Qed.

Lemma keys_replace o k v : keys (replace k v o) = keys o.
Proof.
  induction o as [|[k' v'] r IH]; simpl; [reflexivity|].
  destruct (String.eqb k k'); simpl; [reflexivity | now rewrite IH].
Qed.

Lemma get_replace o k v k' :
  get k' (replace k v o) =
  if String.eqb k' k then (if has k o then Some v else None) else get k' o.
Proof.
  induction o as [|[k2 v2] r IH]; simpl.
  - now destruct (String.eqb k' k).
  - unfold has in *. simpl.
    destruct (String.eqb_spec k k2) as [->|Hne]; simpl.
    + destruct (String.eqb_spec k' k2); reflexivity.
    + destruct (String.eqb_spec k' k2) as [->|Hne'].
      * destruct (String.eqb_spec k2 k); [congruence | reflexivity].
      * apply IH.
Qed.

Lemma insert_index_perm n k v o :
  Permutation (insert_index n k v o) ((k, v) :: o).
Proof.
  induction o as [|[k' v'] r IH]; simpl; [reflexivity|].
  destruct (array_index k'); [|reflexivity].
  destruct (n0 <? n)%N eqn:E; [|reflexivity].
  rewrite IH. apply perm_swap.
Qed.

End ObjectFacts.

Section SetFacts.
Context {A : Type}.
Implicit Types (o : obj A) (k : string) (v : A).

Lemma get_app o o' k :
  get k (o ++ o')%list = match get k o with Some x => Some x | None => get k o' end.
Proof.
  induction o as [|[k' v'] r IH]; simpl; [reflexivity|].
  destruct (String.eqb k k'); [reflexivity | apply IH].
Qed.

Lemma get_insert_index o n k v k' :
  ~ In k (keys o) ->
  get k' (insert_index n k v o) = if String.eqb k' k then Some v else get k' o.
Proof.
  unfold keys.
  induction o as [|[k2 v2] r IH]; simpl; intros Hnotin.
  - reflexivity.
  - assert (Hne : k <> k2) by (intros ->; tauto).
    assert (Hr : ~ In k (map fst r)) by tauto.
    destruct (array_index k2) as [m|]; [destruct (m <? n)%N|]; simpl;
      try reflexivity.
    rewrite (IH Hr).
    destruct (String.eqb_spec k' k2) as [->|]; [|reflexivity].
    destruct (String.eqb_spec k2 k); [congruence | reflexivity].
Qed.

Lemma get_set o k v k' :
  get k' (set k v o) = if String.eqb k' k then Some v else get k' o.
Proof.
  unfold set. destruct (has k o) eqn:Hhas.
  - rewrite get_replace, Hhas. reflexivity.
  - apply has_false in Hhas.
    destruct (array_index k) as [n|].
    + now apply get_insert_index.
    + rewrite get_app. simpl.
      destruct (String.eqb_spec k' k) as [->|].
      * apply get_None in Hhas. now rewrite Hhas.
      * now destruct (get k' o).
Qed.

Lemma set_perm_new o k v :
  has k o = false -> Permutation (set k v o) ((k, v) :: o).
Proof.
  unfold set. intros ->. destruct (array_index k).
  - apply insert_index_perm.
  - symmetry. apply Permutation_cons_append.
Qed.

Lemma keys_set_old o k v : has k o = true -> keys (set k v o) = keys o.
Proof. unfold set. intros ->. apply keys_replace. Qed.

Lemma In_keys_set o k v k' :
  In k' (keys (set k v o)) <-> k' = k \/ In k' (keys o).
Proof.
  destruct (has k o) eqn:Hhas.
  - rewrite keys_set_old by assumption. apply has_true in Hhas.
    intuition congruence.
  - unfold keys. rewrite (Permutation_in' (eq_refl k')
      (Permutation_map fst (set_perm_new o k v Hhas))).
    simpl. intuition congruence.
Qed.

Lemma NoDup_keys_set o k v : NoDup (keys o) -> NoDup (keys (set k v o)).
Proof.
  intros Hnd. destruct (has k o) eqn:Hhas.
  - now rewrite keys_set_old.
  - unfold keys.
    eapply Permutation_NoDup.
    + symmetry. apply Permutation_map. apply set_perm_new, Hhas.
    + simpl. constructor; [now apply has_false | assumption].
Qed.

Lemma NoDup_keys_assign o t : NoDup (keys t) -> NoDup (keys (assign t o)).
Proof.
  unfold assign. revert t.
  induction o as [|[k v] r IH]; simpl; intros t Ht; [assumption|].
  apply IH. now apply NoDup_keys_set.
Qed.

Lemma get_assign o t k :
  NoDup (keys o) ->
  get k (assign t o) = match get k o with Some x => Some x | None => get k t end.
Proof.
  unfold assign. revert t.
  induction o as [|[k' v'] r IH]; simpl; intros t Hnd; [reflexivity|].
  apply NoDup_cons_iff in Hnd as [Hnotin Hnd].
  rewrite (IH _ Hnd), get_set.
  destruct (String.eqb_spec k k') as [->|].
  - apply get_None in Hnotin. now rewrite Hnotin.
  - reflexivity.
Qed.

Lemma get_perm o1 o2 k :
  NoDup (keys o1) -> Permutation o1 o2 -> get k o1 = get k o2.
Proof.
  intros Hnd Hperm.
  assert (Hnd2 : NoDup (keys o2)).
  { eapply Permutation_NoDup; [|exact Hnd]. now apply Permutation_map. }
  destruct (get k o1) eqn:E1.
  - symmetry. apply In_get; [assumption|].
    eapply Permutation_in; [exact Hperm|]. now apply get_Some_In.
  - symmetry. apply get_None. apply get_None in E1.
    intros Hin. apply E1.
    eapply Permutation_in; [|exact Hin].
    symmetry. now apply Permutation_map.
Qed.

(** An object is determined by its keys, in order, and what [get] finds. *)
Lemma obj_ext o1 o2 :
  NoDup (keys o1) -> keys o1 = keys o2 ->
  (forall k, get k o1 = get k o2) -> o1 = o2.
Proof.
  revert o2.
  induction o1 as [|[k v] r IH]; intros [|[k2 v2] r2]; simpl;
    try discriminate; [reflexivity|].
  intros Hnd [= <- Hkeys] Hget.
  apply NoDup_cons_iff in Hnd as [Hnotin Hnd].
  pose proof (Hget k) as Hk. rewrite String.eqb_refl in Hk.
  injection Hk as <-. f_equal.
  apply IH; [assumption..|].
  intros k'. specialize (Hget k').
  destruct (String.eqb_spec k' k) as [Heq|Hne]; [subst k'|assumption].
  transitivity (@None A).
  - now apply get_None.
  - symmetry. apply get_None. now rewrite <- Hkeys.
Qed.

End SetFacts.

(* ================================================================== *)
(** * Facts about the order of strings and [sort] *)

Lemma ascii_compare_trans a b c o :
  Ascii.compare a b = o -> Ascii.compare b c = o -> Ascii.compare a c = o.
Proof.
  unfold Ascii.compare. destruct o.
  - rewrite !N.compare_eq_iff. congruence.
  - rewrite !N.compare_lt_iff. lia.
  - rewrite !N.compare_gt_iff. lia.
Qed.

Lemma string_compare_lt_trans s1 : forall s2 s3,
  String.compare s1 s2 = Lt -> String.compare s2 s3 = Lt ->
  String.compare s1 s3 = Lt.
Proof.
  induction s1 as [|a s1 IH]; intros [|b s2] [|c s3]; simpl;
    try discriminate; try reflexivity.
  destruct (Ascii.compare a b) eqn:Eab; try discriminate;
    destruct (Ascii.compare b c) eqn:Ebc; try discriminate; intros H1 H2.
  - rewrite (ascii_compare_trans _ _ _ _ Eab Ebc). eauto.
  - apply Ascii.compare_eq_iff in Eab. subst b. now rewrite Ebc.
  - apply Ascii.compare_eq_iff in Ebc. subst c. now rewrite Eab.
  - now rewrite (ascii_compare_trans _ _ _ _ Eab Ebc).
Qed.

Lemma string_leb_trans s1 s2 s3 :
  String.leb s1 s2 = true -> String.leb s2 s3 = true -> String.leb s1 s3 = true.
Proof.
  unfold String.leb.
  destruct (String.compare s1 s2) eqn:E12; try discriminate;
    destruct (String.compare s2 s3) eqn:E23; try discriminate; intros _ _.
  - apply String.compare_eq_iff in E12. subst. now rewrite E23.
  - apply String.compare_eq_iff in E12. subst. now rewrite E23.
  - apply String.compare_eq_iff in E23. subst. now rewrite E12.
  - now rewrite (string_compare_lt_trans _ _ _ E12 E23).
Qed.

Lemma insert_key_perm k l : Permutation (insert_key k l) (k :: l).
Proof.
  induction l as [|h t IH]; simpl; [reflexivity|].
  destruct (String.leb k h); [reflexivity|].
  rewrite IH. apply perm_swap.
Qed.

Lemma sort_perm l : Permutation (sort l) l.
Proof.
  induction l as [|h t IH]; simpl; [reflexivity|].
  rewrite insert_key_perm. now constructor.
Qed.

Lemma insert_key_sorted k l :
  StronglySorted le_key l -> StronglySorted le_key (insert_key k l).
Proof.
  induction 1 as [|h t Hs IH Hall]; simpl.
  - repeat constructor.
  - destruct (String.leb k h) eqn:E.
    + constructor; [now constructor|].
      constructor; [exact E|].
      eapply Forall_impl; [|exact Hall].
      intros x Hx. eapply string_leb_trans; eassumption.
    + constructor; [assumption|].
      eapply Permutation_Forall; [symmetry; apply insert_key_perm|].
      constructor; [|assumption].
      destruct (String.leb_total k h) as [H|H]; [congruence | exact H].
Qed.

Lemma sort_sorted l : StronglySorted le_key (sort l).
Proof.
  induction l as [|h t IH]; simpl; [constructor | now apply insert_key_sorted].
Qed.

Lemma sorted_perm_eq l1 : forall l2,
  StronglySorted le_key l1 -> StronglySorted le_key l2 ->
  Permutation l1 l2 -> l1 = l2.
Proof.
  induction l1 as [|a l1 IH]; intros l2 H1 H2 Hp.
  - apply Permutation_nil in Hp. now subst.
  - destruct l2 as [|b l2].
    + symmetry in Hp. now apply Permutation_nil in Hp.
    + inversion H1 as [|? ? Hs1 Ha]; subst.
      inversion H2 as [|? ? Hs2 Hb]; subst.
      assert (a = b) as <-.
      { assert (Hab : In a (b :: l2)) by (eapply Permutation_in; [exact Hp | now left]).
        assert (Hba : In b (a :: l1)) by (eapply Permutation_in; [symmetry; exact Hp | now left]).
        destruct Hab as [->|Hab]; [reflexivity|].
        destruct Hba as [->|Hba]; [reflexivity|].
        rewrite Forall_forall in Ha, Hb.
        apply String.leb_antisym; [apply Ha, Hba | apply Hb, Hab]. }
      f_equal. apply IH; [assumption..|].
      eapply Permutation_cons_inv; exact Hp.
Qed.

Lemma sort_perm_eq l1 l2 : Permutation l1 l2 -> sort l1 = sort l2.
Proof.
  intros Hp. apply sorted_perm_eq; try apply sort_sorted.
  rewrite !sort_perm. exact Hp.
Qed.

(* ================================================================== *)
(** * Facts about [sortKeys] *)

Lemma value_nested_ind (P : value -> Prop) :
  P VNull ->
  (forall s, P (VStr s)) ->
  (forall o, Forall (fun kv => P (snd kv)) o -> P (VObj o)) ->
  forall v, P v.
Proof.
  intros Hnull Hstr Hobj.
  fix IH 1. intros [|s|o].
  - exact Hnull.
  - apply Hstr.
  - apply Hobj. induction o as [|kv r IHr]; constructor.
    + apply IH.
    + exact IHr.
Qed.

Lemma rebuild_ext {A : Type} (o o' : obj A) ks :
  (forall k, get k o = get k o') -> rebuild o ks = rebuild o' ks.
Proof.
  intros Hget. unfold rebuild. generalize (@nil (string * A)).
  induction ks as [|k ks IH]; intros acc; simpl; [reflexivity|].
  replace (receive o acc k) with (receive o' acc k)
    by (unfold receive; now rewrite Hget).
  apply IH.
Qed.

Lemma keys_map_value {A B : Type} (f : A -> B) (o : obj A) :
  keys (map (fun kv => (fst kv, f (snd kv))) o) = keys o.
Proof.
  unfold keys. rewrite map_map. reflexivity.
Qed.

Lemma get_map_value {A B : Type} (f : A -> B) (o : obj A) k :
  get k (map (fun kv => (fst kv, f (snd kv))) o) = option_map f (get k o).
Proof.
  induction o as [|[k' v'] r IH]; simpl; [reflexivity|].
  destruct (String.eqb k k'); [reflexivity | apply IH].
Qed.

Lemma sortKeys_value_obj o : sortKeys_value (VObj o) = VObj (sortKeys o).
Proof. reflexivity. Qed.

Lemma Forall2_keys (R : value -> value -> Prop) (o1 o2 : obj value) :
  Forall2 (fun a b => fst a = fst b /\ R (snd a) (snd b)) o1 o2 ->
  keys o1 = keys o2.
Proof.
  induction 1 as [|a b r1 r2 [Hk _] _ IH]; simpl; [reflexivity|].
  now rewrite Hk, IH.
Qed.

(** Sorting the keys forgets the order in which they were listed. *)
Lemma sortKeys_value_same_fields v2 : forall v1,
  unique_keys v1 = true -> same_fields v1 v2 ->
  sortKeys_value v1 = sortKeys_value v2.
Proof.
  induction v2 as [| s | o2 IH] using value_nested_ind;
    intros v1 Hu Hsame; inversion Hsame; subst; try reflexivity.
  simpl in Hu.
  apply andb_true_iff in Hu as [Hnd Hall].
  apply distinct_NoDup in Hnd. rewrite forallb_forall in Hall.
  match goal with H : Permutation o1 _ |- _ => rename H into Hperm end.
  match goal with H : Forall2 _ _ o2 |- _ => rename H into Hrel end.
  simpl. f_equal.
  assert (Hkeys : sort (keys o1) = sort (keys o2)).
  { apply sort_perm_eq. rewrite <- (Forall2_keys _ _ _ Hrel).
    now apply Permutation_map. }
  rewrite Hkeys. apply rebuild_ext. intros k.
  assert (Hmap : map (fun kv => (fst kv, sortKeys_value (snd kv))) o1'
                 = map (fun kv => (fst kv, sortKeys_value (snd kv))) o2).
  { assert (Hall' : forall kv, In kv o1' -> unique_keys (snd kv) = true).
    { intros kv Hin. apply Hall. eapply Permutation_in; [symmetry|]; eassumption. }
    clear Hperm Hkeys Hall Hnd Hsame.
    induction Hrel as [|a b r1 r2 [Hk Hv] Hrel IHrel]; [reflexivity|].
    inversion IH as [|? ? IHb IHr]; subst. simpl. f_equal.
    - rewrite Hk. f_equal. apply IHb; [apply Hall'; now left | exact Hv].
    - apply IHrel; [exact IHr|]. intros kv Hin. apply Hall'. now right. }
  rewrite <- Hmap. apply get_perm.
  - now rewrite keys_map_value.
  - now apply Permutation_map.
Qed.

(* ================================================================== *)
(** * Own-property order and filtering *)

Section OrderFacts.
Context {A : Type}.
Implicit Types (o : obj A) (k : string) (v : A).

Lemma above_weaken n m o : (m <= n)%N -> above n o -> above m o.
Proof.
  intros Hle. unfold above. apply Forall_impl.
  intros kv. destruct (array_index (fst kv)); [lia | trivial].
Qed.

Lemma ordered_tail kv o : ordered (kv :: o) -> ordered o.
Proof.
  inversion 1 as [| |k v r Hk Hall]; subst; [assumption|].
  clear -Hall. induction Hall as [|[k' v'] r Hk' Hall IH]; constructor; auto.
Qed.

(** In an ordered object whose first key is not below [n], no key is. *)
Lemma ordered_above n k v o :
  ordered ((k, v) :: o) ->
  match array_index k with Some m => (n <= m)%N | None => True end ->
  above n ((k, v) :: o).
Proof.
  intros Hord Hhead. constructor; [exact Hhead|].
  inversion Hord as [|? ? m r Hk Habove Hr|? ? r Hk Hall]; subst.
  - rewrite Hk in Hhead. eapply above_weaken; [|exact Habove]. lia.
  - unfold above. eapply Forall_impl; [|exact Hall].
    intros kv Hkv. simpl in Hkv. now rewrite Hkv.
Qed.

Lemma insert_index_front n k v o :
  above n o -> insert_index n k v o = (k, v) :: o.
Proof.
  destruct o as [|[k' v'] r]; simpl; [reflexivity|].
  intros Habove. inversion Habove as [|? ? Hhead _]; subst. simpl in Hhead.
  destruct (array_index k') as [m|]; [|reflexivity].
  destruct (N.ltb_spec m n); [lia | reflexivity].
Qed.

Lemma above_filter (P : string * A -> bool) n o :
  above n o -> above n (filter P o).
Proof.
  unfold above. rewrite !Forall_forall. intros H kv Hin.
  apply filter_In in Hin as [Hin _]. exact (H kv Hin).
Qed.

Lemma ordered_filter (P : string * A -> bool) o :
  ordered o -> ordered (filter P o).
Proof.
  induction o as [|[k v] r IH]; simpl; intros Hord; [constructor|].
  pose proof (ordered_tail _ _ Hord) as Hr.
  destruct (P (k, v)); [|auto].
  inversion Hord as [|? ? m ? Hk Habove _|? ? ? Hk Hall]; subst.
  - eapply ordered_index; eauto using above_filter.
  - apply ordered_name; [assumption|].
    rewrite Forall_forall in *. intros kv Hin.
    apply filter_In in Hin as [Hin _]. auto.
Qed.

Lemma filter_insert_index (P : string * A -> bool) n k v o :
  ordered o -> P (k, v) = true ->
  filter P (insert_index n k v o) = insert_index n k v (filter P o).
Proof.
  intros Hord HP.
  induction o as [|[k' v'] r IH]; simpl.
  - now rewrite HP.
  - pose proof (ordered_tail _ _ Hord) as Hr.
    assert (Hfront : match array_index k' with
                     | Some m => (n <= m)%N | None => True end ->
                     insert_index n k v (filter P ((k', v') :: r))
                     = (k, v) :: filter P ((k', v') :: r)).
    { intros Hhead. apply insert_index_front, above_filter.
      now apply ordered_above. }
    simpl in Hfront.
    destruct (array_index k') as [m|] eqn:Hk'.
    + destruct (N.ltb_spec m n) as [Hlt|Hge].
      * simpl. destruct (P (k', v')); simpl.
        -- rewrite Hk'. destruct (N.ltb_spec m n); [|lia].
           now rewrite IH.
        -- now apply IH.
      * simpl. rewrite HP. now rewrite Hfront.
    + simpl. rewrite HP. now rewrite Hfront.
Qed.

Lemma ordered_app_name o k v :
  ordered o -> array_index k = None -> ordered (o ++ [(k, v)])%list.
Proof.
  intros Hord Hk.
  induction o as [|[k' v'] r IH]; simpl.
  - apply ordered_name; [assumption | constructor].
  - pose proof (ordered_tail _ _ Hord) as Hr.
    inversion Hord as [|? ? m ? Hk' Habove _|? ? ? Hk' Hall]; subst.
    + eapply ordered_index; eauto.
      unfold above in *. apply Forall_app. split; [assumption|].
      constructor; [|constructor]. simpl. now rewrite Hk.
    + apply ordered_name; [assumption|].
      apply Forall_app. split; [assumption|].
      constructor; [exact Hk | constructor].
Qed.

Lemma ordered_insert_index n k v o :
  ordered o -> array_index k = Some n -> ordered (insert_index n k v o).
Proof.
  intros Hord Hk.
  induction o as [|[k' v'] r IH]; simpl.
  - eapply ordered_index; eauto; constructor.
  - pose proof (ordered_tail _ _ Hord) as Hr.
    assert (Hfront : match array_index k' with
                     | Some m => (n <= m)%N | None => True end ->
                     ordered ((k, v) :: (k', v') :: r)).
    { intros Hhead. eapply ordered_index; [exact Hk| |exact Hord].
      now apply ordered_above. }
    destruct (array_index k') as [m|] eqn:Hk'; [|now apply Hfront].
    destruct (N.ltb_spec m n) as [Hlt|Hge]; [|now apply Hfront].
    inversion Hord as [|? ? m' ? Hk'' Habove _|? ? ? Hk'' _]; subst;
      [|congruence].
    assert (m' = m) as -> by congruence.
    eapply ordered_index; [exact Hk'| |now apply IH].
    unfold above in *.
    eapply Permutation_Forall; [symmetry; apply insert_index_perm|].
    constructor; [|assumption]. simpl. rewrite Hk. lia.
Qed.

Lemma ordered_set_new o k v : ordered o -> has k o = false -> ordered (set k v o).
Proof.
  intros Hord Hhas. unfold set. rewrite Hhas.
  destruct (array_index k) as [n|] eqn:Hk.
  - now apply ordered_insert_index.
  - now apply ordered_app_name.
Qed.

Lemma filter_set_keep (P : string * A -> bool) o k v :
  ordered o -> has k o = false -> P (k, v) = true ->
  filter P (set k v o) = set k v (filter P o).
Proof.
  intros Hord Hhas HP. unfold set. rewrite Hhas.
  assert (Hhas' : has k (filter P o) = false).
  { apply has_false. apply has_false in Hhas. intros Hin. apply Hhas.
    unfold keys in *. apply in_map_iff in Hin as [kv [<- Hin]].
    apply filter_In in Hin as [Hin _]. now apply in_map. }
  rewrite Hhas'.
  destruct (array_index k) as [n|].
  - now apply filter_insert_index.
  - rewrite filter_app. simpl. now rewrite HP.
Qed.

Lemma filter_set_drop (P : string * A -> bool) o k v :
  has k o = false -> P (k, v) = false ->
  filter P (set k v o) = filter P o.
Proof.
  intros Hhas HP. unfold set. rewrite Hhas.
  destruct (array_index k) as [n|].
  - clear Hhas. induction o as [|[k' v'] r IH]; simpl.
    + now rewrite HP.
    + destruct (array_index k') as [m|]; [destruct (m <? n)%N|]; simpl;
        rewrite ?HP, ?IH; reflexivity.
  - rewrite filter_app. simpl. rewrite HP. apply app_nil_r.
Qed.

End OrderFacts.

(* ================================================================== *)
(** * Removing fields before or after [sortKeys] *)

Lemma insert_key_front k l : Forall (le_key k) l -> insert_key k l = k :: l.
Proof.
  destruct 1 as [|h t Hh _]; simpl; [reflexivity|].
  unfold le_key in Hh. now rewrite Hh.
Qed.

Lemma filter_insert_key (p : string -> bool) k l :
  StronglySorted le_key l ->
  filter p (insert_key k l) =
  if p k then insert_key k (filter p l) else filter p l.
Proof.
  induction 1 as [|h t Hs IH Hall]; simpl.
  - now destruct (p k).
  - destruct (String.leb k h) eqn:Hle; simpl.
    + destruct (p k); [|reflexivity].
      destruct (p h); simpl; [now rewrite Hle|].
      symmetry. apply insert_key_front.
      rewrite Forall_forall in *. intros x Hx.
      apply filter_In in Hx as [Hx _].
      eapply string_leb_trans; [exact Hle | now apply Hall].
    + rewrite IH. destruct (p h), (p k); simpl; rewrite ?Hle; reflexivity.
Qed.

Lemma filter_sort (p : string -> bool) l :
  filter p (sort l) = sort (filter p l).
Proof.
  induction l as [|h t IH]; simpl; [reflexivity|].
  rewrite filter_insert_key by apply sort_sorted.
  rewrite IH. now destruct (p h).
Qed.

Section FilterFacts.
Context {A : Type}.
Variable P : A -> bool.
Variable o : obj A.

Lemma filter_rebuild_from ks : forall acc,
  NoDup ks -> (forall k, In k ks -> ~ In k (keys acc)) -> ordered acc ->
  filter (fun kv => P (snd kv)) (fold_left (receive o) ks acc)
  = fold_left (receive o) (filter (kept P o) ks)
              (filter (fun kv => P (snd kv)) acc).
Proof.
  induction ks as [|k ks IH]; intros acc Hnd Hfresh Hord; [reflexivity|].
  cbn [fold_left filter].
  apply NoDup_cons_iff in Hnd as [Hk Hnd].
  assert (Hhas : has k acc = false) by (apply has_false, Hfresh; now left).
  destruct (get k o) as [x|] eqn:Hget.
  - assert (Hstep : forall r, receive o r k = set k x r)
      by (intros r; unfold receive; now rewrite Hget).
    assert (Hkept : kept P o k = P x) by (unfold kept; now rewrite Hget).
    rewrite Hstep, Hkept, IH.
    + destruct (P x) eqn:HP; cbn [fold_left].
      * rewrite Hstep. now rewrite filter_set_keep.
      * now rewrite filter_set_drop.
    + assumption.
    + intros k' Hin. rewrite In_keys_set. intros [->|Hin'];
        [contradiction | eapply Hfresh; [right|]; eassumption].
    + now apply ordered_set_new.
  - assert (Hstep : receive o acc k = acc)
      by (unfold receive; now rewrite Hget).
    assert (Hkept : kept P o k = false) by (unfold kept; now rewrite Hget).
    rewrite Hstep, Hkept. apply IH; [assumption| |assumption].
    intros k' Hin. apply Hfresh. now right.
Qed.

Lemma filter_rebuild ks :
  NoDup ks ->
  filter (fun kv => P (snd kv)) (rebuild o ks) = rebuild o (filter (kept P o) ks).
Proof.
  intros Hnd. unfold rebuild.
  apply (filter_rebuild_from ks []); [assumption| |constructor].
  intros k _ [].
Qed.

Lemma get_filter_value k :
  NoDup (keys o) ->
  get k (filter (fun kv => P (snd kv)) o) =
  match get k o with
  | Some x => if P x then Some x else None
  | None => None
  end.
Proof.
  induction o as [|[k' v'] r IH]; simpl; intros Hnd; [reflexivity|].
  apply NoDup_cons_iff in Hnd as [Hnotin Hnd]. specialize (IH Hnd).
  destruct (String.eqb_spec k k') as [->|Hne].
  - destruct (P v') eqn:HP; simpl.
    + now rewrite String.eqb_refl.
    + rewrite IH. apply get_None in Hnotin. now rewrite Hnotin.
  - destruct (P v'); simpl; [|exact IH].
    destruct (String.eqb_spec k k'); [congruence | exact IH].
Qed.

Lemma keys_filter_value :
  NoDup (keys o) ->
  keys (filter (fun kv => P (snd kv)) o) = filter (kept P o) (keys o).
Proof.
  unfold kept.
  induction o as [|[k' v'] r IH]; simpl; intros Hnd; [reflexivity|].
  apply NoDup_cons_iff in Hnd as [Hnotin Hnd]. specialize (IH Hnd).
  rewrite String.eqb_refl.
  assert (Hext : filter (fun k => match (if String.eqb k k' then Some v' else get k r)
                                  with Some x => P x | None => false end)
                        (keys r)
                 = filter (fun k => match get k r with
                                    | Some x => P x | None => false end)
                          (keys r)).
  { apply filter_ext_in. intros k Hin.
    destruct (String.eqb_spec k k'); [congruence | reflexivity]. }
  rewrite Hext, <- IH. now destruct (P v').
Qed.

End FilterFacts.

Lemma rebuild_ext_in {A : Type} (o o' : obj A) ks :
  (forall k, In k ks -> get k o = get k o') -> rebuild o ks = rebuild o' ks.
Proof.
  unfold rebuild. generalize (@nil (string * A)).
  induction ks as [|k ks IH]; intros acc Hget; simpl; [reflexivity|].
  replace (receive o acc k) with (receive o' acc k)
    by (unfold receive; rewrite Hget; [reflexivity | now left]).
  apply IH. intros k' Hin. apply Hget. now right.
Qed.

(** Sorting, then dropping the fields that fail a test on their value, is
    dropping them first and sorting the rest. *)
Lemma filter_rebuild_sort {A : Type} (P : A -> bool) (o : obj A) :
  NoDup (keys o) ->
  filter (fun kv => P (snd kv)) (rebuild o (sort (keys o)))
  = rebuild (filter (fun kv => P (snd kv)) o)
            (sort (keys (filter (fun kv => P (snd kv)) o))).
Proof.
  intros Hnd.
  rewrite filter_rebuild.
  2:{ eapply Permutation_NoDup; [symmetry; apply sort_perm | exact Hnd]. }
  rewrite filter_sort, <- keys_filter_value by assumption.
  apply rebuild_ext_in. intros k Hin.
  rewrite get_filter_value by assumption.
  apply (Permutation_in _ (sort_perm _)) in Hin.
  rewrite keys_filter_value in Hin by assumption.
  apply filter_In in Hin as [_ Hkeep]. unfold kept in Hkeep.
  destruct (get k o) as [x|]; [|discriminate]. now rewrite Hkeep.
Qed.

Lemma is_null_sortKeys_value v : is_null (sortKeys_value v) = is_null v.
Proof. now destruct v. Qed.

Lemma sortKeys_without_nulls o :
  NoDup (keys o) -> without_nulls (sortKeys o) = sortKeys (without_nulls o).
Proof.
  intros Hnd. unfold sortKeys, without_nulls.
  rewrite <- (keys_map_value sortKeys_value o).
  rewrite (filter_rebuild_sort (fun v => negb (is_null v))).
  2:{ now rewrite keys_map_value. }
  assert (Hmap : filter (fun kv => negb (is_null (snd kv)))
                   (map (fun kv => (fst kv, sortKeys_value (snd kv))) o)
                 = map (fun kv => (fst kv, sortKeys_value (snd kv)))
                     (filter (fun kv => negb (is_null (snd kv))) o)).
  { clear Hnd. induction o as [|[k v] r IH]; simpl; [reflexivity|].
    rewrite is_null_sortKeys_value, IH. now destruct (is_null v). }
  rewrite Hmap, !keys_map_value. reflexivity.
Qed.

Lemma flat_map_filter_skip {X Y : Type} (h : X -> list Y) (p : X -> bool) l :
  (forall x, p x = false -> h x = []) ->
  flat_map h (filter p l) = flat_map h l.
Proof.
  intros Hskip. induction l as [|x l IH]; [reflexivity|].
  cbn [filter flat_map]. destruct (p x) eqn:Hp; cbn [flat_map].
  - now rewrite IH.
  - now rewrite (Hskip x Hp), IH.
Qed.

Lemma filter_comm {X : Type} (p q : X -> bool) l :
  filter p (filter q l) = filter q (filter p l).
Proof.
  induction l as [|x l IH]; [reflexivity|].
  cbn [filter]. destruct (p x) eqn:Hp, (q x) eqn:Hq; cbn [filter];
    rewrite ?Hp, ?Hq, IH; reflexivity.
Qed.

(** The [key = value] lines of a table, at whatever depth it is emitted
    (any indentation), are those of the table without its [null] fields. *)
Lemma inlineLines_without_nulls indent t :
  inlineLines indent (without_nulls t) = inlineLines indent t.
Proof.
  unfold inlineLines, inlineKeys, without_nulls.
  rewrite filter_comm. apply flat_map_filter_skip.
  intros [k v] Hnull. cbn [snd] in *.
  apply negb_false_iff in Hnull. now rewrite Hnull.
Qed.

(** The emitter gives a top-level table the text of the table without its
    [null] fields. *)
Lemma TOML_stringify_without_nulls doc :
  TOML_stringify doc = TOML_stringify (without_nulls doc).
Proof.
  unfold TOML_stringify. cbn [stringifyTable]. cbv zeta.
  rewrite inlineLines_without_nulls.
  replace (String.eqb "" "") with true by reflexivity.
  cbn [negb andb]. f_equal. f_equal.
  unfold without_nulls. symmetry. apply flat_map_filter_skip.
  intros [k v] Hnull. cbn [snd] in *.
  apply negb_false_iff in Hnull. destruct v; try discriminate. reflexivity.
Qed.

Lemma serialize_without_nulls doc :
  NoDup (keys doc) -> serialize doc = serialize (without_nulls doc).
Proof.
  intros Hnd. unfold serialize.
  rewrite TOML_stringify_without_nulls, sortKeys_without_nulls by assumption.
  reflexivity.
Qed.

(* ================================================================== *)
(** * Facts about strings *)

Lemma length_append (a b : string) :
  String.length (a ++ b) = String.length a + String.length b.
Proof. induction a as [|c a IH]; simpl; [reflexivity | now rewrite IH]. Qed.

Lemma append_cancel_l (s a b : string) : s ++ a = s ++ b -> a = b.
Proof.
  induction s as [|c s IH]; simpl; [trivial|].
  intros [= H]. auto.
Qed.

Lemma append_cancel_r (s : string) : forall a b, a ++ s = b ++ s -> a = b.
Proof.
  induction a as [|c a IH]; intros [|d b] H; simpl in H.
  - reflexivity.
  - apply (f_equal String.length) in H. simpl in H.
    rewrite length_append in H. lia.
  - apply (f_equal String.length) in H. simpl in H.
    rewrite length_append in H. lia.
  - injection H as -> H. f_equal. auto.
Qed.

(* ================================================================== *)
(** * What a document's bytes depend on *)

Lemma get_remove {A : Type} (o : obj A) k k' :
  get k' (remove k o) = if String.eqb k' k then None else get k' o.
Proof.
  induction o as [|[k2 v2] r IH]; simpl.
  - now destruct (String.eqb k' k).
  - destruct (String.eqb_spec k k2) as [->|Hne]; simpl.
    + rewrite IH. destruct (String.eqb_spec k' k2); reflexivity.
    + destruct (String.eqb_spec k' k2) as [->|Hne'].
      * destruct (String.eqb_spec k2 k); [congruence | reflexivity].
      * apply IH.
Qed.

Lemma NoDup_keys_remove {A : Type} (o : obj A) k :
  NoDup (keys o) -> NoDup (keys (remove k o)).
Proof.
  unfold keys.
  induction o as [|[k2 v2] r IH]; simpl; intros Hnd; [constructor|].
  apply NoDup_cons_iff in Hnd as [Hnotin Hnd].
  destruct (String.eqb k k2); simpl; [auto|].
  constructor; [|auto].
  intros Hin. apply Hnotin.
  change (In k2 (keys r)). change (In k2 (keys (remove k r))) in Hin.
  apply has_true in Hin. apply has_true.
  unfold has in *. rewrite get_remove in Hin.
  destruct (String.eqb k2 k); [discriminate | exact Hin].
Qed.

Lemma NoDup_keys_filter {A : Type} (P : string * A -> bool) (o : obj A) :
  NoDup (keys o) -> NoDup (keys (filter P o)).
Proof.
  unfold keys.
  induction o as [|[k v] r IH]; simpl; intros Hnd; [constructor|].
  apply NoDup_cons_iff in Hnd as [Hnotin Hnd].
  destruct (P (k, v)); simpl; [|auto].
  constructor; [|auto].
  intros Hin. apply Hnotin. apply in_map_iff in Hin as [kv [<- Hin]].
  apply filter_In in Hin as [Hin _]. now apply in_map.
Qed.

(** Two objects in which every key leads to the same value are sorted
    into the same object, whatever the order of their keys. *)
Lemma sortKeys_ext (o1 o2 : obj value) :
  NoDup (keys o1) -> NoDup (keys o2) ->
  (forall k, get k o1 = get k o2) -> sortKeys o1 = sortKeys o2.
Proof.
  intros Hnd1 Hnd2 Hget. unfold sortKeys.
  assert (Hkeys : sort (keys o1) = sort (keys o2)).
  { apply sort_perm_eq, NoDup_Permutation; [assumption..|].
    intros k. rewrite <- !has_true. unfold has. now rewrite Hget. }
  rewrite Hkeys. apply rebuild_ext. intros k.
  now rewrite !get_map_value, Hget.
Qed.

Lemma serialize_ext (d1 d2 : obj value) :
  NoDup (keys d1) -> NoDup (keys d2) ->
  (forall k, get k (without_nulls d1) = get k (without_nulls d2)) ->
  serialize d1 = serialize d2.
Proof.
  intros Hnd1 Hnd2 Hget.
  rewrite (serialize_without_nulls d1), (serialize_without_nulls d2)
    by assumption.
  unfold serialize. f_equal.
  apply sortKeys_ext; [now apply NoDup_keys_filter..|exact Hget].
Qed.

Lemma get_without_nulls (o : obj value) k :
  NoDup (keys o) ->
  get k (without_nulls o) =
  match get k o with
  | Some x => if is_null x then None else Some x
  | None => None
  end.
Proof.
  intros Hnd. unfold without_nulls.
  rewrite (get_filter_value (fun v => negb (is_null v))) by assumption.
  destruct (get k o) as [x|]; [|reflexivity]. now destruct (is_null x).
Qed.


(** Setting a field to [null] in a copy gives the bytes of the object
    without the field. *)
Lemma serialize_set_null (record : obj value) k :
  NoDup (keys record) ->
  serialize (set k VNull (assign [] record)) = serialize (remove k record).
Proof.
  intros Hnd. apply serialize_ext.
  - apply NoDup_keys_set, NoDup_keys_assign. constructor.
  - now apply NoDup_keys_remove.
  - intros k'. rewrite !get_without_nulls.
    + rewrite get_set, get_remove, get_assign by assumption.
      destruct (String.eqb k' k); [reflexivity|].
      now destruct (get k' record).
    + now apply NoDup_keys_remove.
    + apply NoDup_keys_set, NoDup_keys_assign. constructor.
Qed.

(* ================================================================== *)
(** * The absence marker at every nesting level *)












































(* ================================================================== *)
(** * Serialisation *)

(** C1. Two documents that hold the same fields with the same values, their
    keys listed in any order at any nesting level, are serialised to the
    same bytes: the keys are sorted at every level before emission. *)
Theorem serialize_order_independent (d1 d2 : obj value) :
  unique_keys (VObj d1) = true ->
  same_fields (VObj d1) (VObj d2) ->
  serialize d1 = serialize d2.
Proof.
  intros Hu Hsame. unfold serialize. f_equal.
  pose proof (sortKeys_value_same_fields _ _ Hu Hsame) as H.
  rewrite !sortKeys_value_obj in H. now injection H.
Qed.

Lemma tag_document_NoDup tagData : NoDup (keys (tag_document tagData)).
Proof.
  unfold tag_document.
  repeat apply NoDup_keys_set. apply NoDup_keys_assign. constructor.
Qed.



(* ================================================================== *)
(** * Flat-keyed adapter *)

Lemma NoDup_map_injective {X Y : Type} (f : X -> Y) l :
  (forall x y, In x l -> In y l -> f x = f y -> x = y) ->
  NoDup l -> NoDup (map f l).
Proof.
  intros Hinj. induction 1 as [|x l Hnotin Hnd IH]; simpl; constructor.
  - intros Hin. apply in_map_iff in Hin as [y [Heq Hin]].
    apply Hnotin. rewrite (Hinj x y); [assumption|now left|now right|auto].
  - apply IH. intros a b Ha Hb. apply Hinj; now right.
Qed.

Lemma matchmaker_paths data :
  map fst (matchmaker_tree data) = map (fun key => key ++ ".toml") (keys data).
Proof.
  unfold matchmaker_tree. rewrite map_map. reflexivity.
Qed.

Lemma importMatchmaker_response axios_get source data :
  axios_get (matchmaker_url source) = Response data ->
  importMatchmaker axios_get source
  = mkRun [] (matchmaker_tree data) (Resolved (matchmaker_tree data)).
Proof. intros H. unfold importMatchmaker. now rewrite H. Qed.

(** C8. [importMatchmaker] gives every key of the payload one document,
    written at [key.toml], and nothing else; its bytes are those of the
    key's record without [class_name], every other field being kept with
    its value; the tree it resolves with is the tree of these writes. *)
Theorem matchmaker_one_document_per_key axios_get source
    (data : obj (obj value)) :
  axios_get (matchmaker_url source) = Response data ->
  distinct (keys data) = true ->
  let run := importMatchmaker axios_get source in
  map fst (written run) = map (fun key => key ++ ".toml") (keys data)
  /\ NoDup (map fst (written run))
  /\ result run = Resolved (written run)
  /\ (forall path content,
         In (path, content) (written run) ->
         exists key record,
           get key data = Some record /\ path = key ++ ".toml"
           /\ content = serialize (set "class_name" VNull (assign [] record)))
  /\ forall key record,
      get key data = Some record ->
      distinct (keys record) = true ->
      let tagData := set "class_name" VNull (assign [] record) in
      In (key ++ ".toml", serialize tagData) (written run)
      /\ get "class_name" tagData = Some VNull
      /\ (forall field, field <> "class_name" ->
                        get field tagData = get field record)
      /\ serialize tagData = serialize (remove "class_name" record).
Proof.
  intros Hresp Hd. cbv zeta.
  rewrite (importMatchmaker_response _ _ _ Hresp). cbn [written result].
  apply distinct_NoDup in Hd.
  split; [apply matchmaker_paths|]. split; [|split; [reflexivity|split]].
  - rewrite matchmaker_paths. apply NoDup_map_injective; [|exact Hd].
    intros a b _ _. apply append_cancel_r.
  - intros path content Hin. unfold matchmaker_tree in Hin.
    apply in_map_iff in Hin as [key [Heq Hkey]].
    apply has_true in Hkey. unfold has in Hkey.
    destruct (get key data) as [record|] eqn:Hget; [|discriminate].
    injection Heq as <- <-. exists key, record. auto.
  - intros key record Hget Hrec. apply distinct_NoDup in Hrec.
    split; [|split; [|split]].
    + unfold matchmaker_tree. apply in_map_iff. exists key.
      rewrite Hget. split; [reflexivity|].
      apply has_true. unfold has. now rewrite Hget.
    + rewrite get_set. reflexivity.
    + intros field Hne.
      rewrite get_set, get_assign by assumption.
      destruct (String.eqb_spec field "class_name"); [contradiction|].
      now destruct (get field record).
    + now apply serialize_set_null.
Qed.

(* ================================================================== *)
(** * Handle-prefixed adapter *)

Lemma pieces_cons sep s : exists h t, pieces sep s = h :: t.
Proof.
  induction s as [|c s [h [t IH]]]; simpl; [now eauto|].
  destruct (Ascii.eqb c sep); [now eauto|]. rewrite IH. eauto.
Qed.

Lemma pieces_no_dot s : has_dot s = false -> pieces "." s = [s].
Proof.
  induction s as [|c s IH]; simpl; [reflexivity|].
  destruct (Ascii.eqb c "."); simpl; [discriminate|].
  intros H. now rewrite (IH H).
Qed.

Lemma pieces_dot s :
  has_dot s = true -> exists h t rest, pieces "." s = h :: t :: rest.
Proof.
  induction s as [|c s IH]; simpl; [discriminate|].
  destruct (Ascii.eqb c "."); simpl.
  - intros _. destruct (pieces_cons "." s) as [h [t ->]]. eauto.
  - intros H. destruct (IH H) as [h [t [rest ->]]]. eauto.
Qed.

Lemma handle_tag_no_dot s : has_dot s = false -> handle_tag s = None.
Proof.
  intros H. unfold handle_tag, split. now rewrite (pieces_no_dot s H).
Qed.

Lemma handle_tag_dot s : has_dot s = true -> exists t, handle_tag s = Some t.
Proof.
  intros H. unfold handle_tag, split.
  destruct (pieces_dot s H) as [h [t [rest ->]]]. simpl. eauto.
Qed.

Lemma handle_tag_has_dot s t : handle_tag s = Some t -> has_dot s = true.
Proof.
  destruct (has_dot s) eqn:E; [reflexivity|].
  now rewrite (handle_tag_no_dot s E).
Qed.

(** One turn of the loading loop, seen from [tagsByPrefix]. *)
Lemma organize_tag_tags st r :
  tagsByPrefix (organize_tag st r) =
  if accepted r
  then store (handle_prefix (Handle r)) (tag_of r) (entry r) (tagsByPrefix st)
  else tagsByPrefix st.
Proof.
  unfold organize_tag, accepted, tag_of.
  destruct (handle_tag (Handle r)) as [[|c t]|]; try reflexivity.
  destruct (String.eqb_spec (handle_prefix (Handle r)) "event") as [->|_];
    [reflexivity|].
  destruct (String.eqb (handle_prefix (Handle r)) "tech"),
           (String.eqb (handle_prefix (Handle r)) "topic"); reflexivity.
Qed.

Lemma organize_snoc data r :
  organize (data ++ [r])%list = organize_tag (organize data) r.
Proof. unfold organize. now rewrite fold_left_app. Qed.

Lemma fold_organize_tags data : forall st st',
  tagsByPrefix st = tagsByPrefix st' ->
  tagsByPrefix (fold_left organize_tag data st)
  = tagsByPrefix (fold_left organize_tag data st').
Proof.
  induction data as [|r data IH]; intros st st' Heq; simpl; [exact Heq|].
  apply IH. now rewrite !organize_tag_tags, Heq.
Qed.

Lemma get_store_prefix prefix tag e byPrefix p :
  get p (store prefix tag e byPrefix) =
  if String.eqb p prefix
  then Some (assign_object tag e (tags_of prefix byPrefix))
  else get p byPrefix.
Proof.
  unfold store, tags_of. rewrite get_set.
  destruct (String.eqb_spec p prefix) as [->|Hne].
  - unfold has. destruct (get prefix byPrefix) eqn:E.
    + now rewrite E.
    + now rewrite get_set, String.eqb_refl.
  - destruct (has prefix byPrefix); [reflexivity|].
    rewrite get_set. destruct (String.eqb_spec p prefix); [congruence|reflexivity].
Qed.

Lemma entry_of_store prefix tag e byPrefix p t :
  entry_of p t (store prefix tag e byPrefix) =
  if String.eqb p prefix && String.eqb t tag
     && negb (String.eqb tag "__proto__")
  then Some e
  else entry_of p t byPrefix.
Proof.
  unfold entry_of. rewrite get_store_prefix.
  destruct (String.eqb_spec p prefix) as [->|Hne]; simpl; [|reflexivity].
  unfold assign_object, tags_of.
  destruct (String.eqb tag "__proto__"); simpl.
  - rewrite andb_false_r. now destruct (get prefix byPrefix).
  - rewrite andb_true_r, get_set.
    destruct (String.eqb t tag); [reflexivity|].
    now destruct (get prefix byPrefix).
Qed.

Lemma well_keyed_store prefix tag e byPrefix :
  prefix = "tech" \/ prefix = "topic" ->
  keys e = ["handle"; "title"] ->
  well_keyed byPrefix -> well_keyed (store prefix tag e byPrefix).
Proof.
  intros Hprefix He [Hnd Htags]. split.
  - unfold store. apply NoDup_keys_set.
    destruct (has prefix byPrefix); [assumption | now apply NoDup_keys_set].
  - intros p tags. rewrite get_store_prefix.
    destruct (String.eqb_spec p prefix) as [->|Hne]; [|apply Htags].
    intros [= <-].
    assert (Hold : NoDup (keys (own (tags_of prefix byPrefix)))
                   /\ (forall q, inherited (tags_of prefix byPrefix) = Some q ->
                                 keys q = ["handle"; "title"])).
    { unfold tags_of. destruct (get prefix byPrefix) as [tags|] eqn:E.
      - destruct (Htags prefix tags E) as [H1 [H2 _]]. auto.
      - split; [constructor | discriminate]. }
    destruct Hold as [Hown Hproto].
    unfold assign_object. destruct (String.eqb tag "__proto__"); simpl.
    + split; [exact Hown|]. split; [|exact Hprefix]. now intros q [= <-].
    + split; [now apply NoDup_keys_set|]. split; [exact Hproto|exact Hprefix].
Qed.

Lemma accepted_prefix r :
  accepted r = true ->
  handle_prefix (Handle r) = "tech" \/ handle_prefix (Handle r) = "topic".
Proof.
  unfold accepted.
  destruct (handle_tag (Handle r)) as [[|c t]|]; try discriminate.
  rewrite orb_true_iff, !String.eqb_eq. trivial.
Qed.

Lemma well_keyed_organize data : well_keyed (tagsByPrefix (organize data)).
Proof.
  induction data as [|r data IH] using rev_ind.
  - split; [constructor | discriminate].
  - rewrite organize_snoc, organize_tag_tags.
    destruct (accepted r) eqn:Hacc; [|exact IH].
    apply well_keyed_store;
      [now apply accepted_prefix | reflexivity | exact IH].
Qed.

Lemma NoDup_flat_map {X Y : Type} (f : X -> list Y) l :
  NoDup l ->
  (forall x, In x l -> NoDup (f x)) ->
  (forall x y z, In x l -> In y l -> In z (f x) -> In z (f y) -> x = y) ->
  NoDup (flat_map f l).
Proof.
  induction 1 as [|x l Hnotin Hnd IH]; intros Heach Hdisj; simpl;
    [constructor|].
  apply NoDup_app.
  - apply Heach. now left.
  - apply IH.
    + intros y Hy. apply Heach. now right.
    + intros a b z Ha Hb. apply Hdisj; now right.
  - intros z Hzx Hzl. apply in_flat_map in Hzl as [y [Hy Hzy]].
    apply Hnotin. rewrite (Hdisj x y z); [assumption|now left|now right|auto..].
Qed.

Lemma for_in_NoDup tags :
  NoDup (keys (own tags)) ->
  (forall p, inherited tags = Some p -> NoDup (keys p)) ->
  NoDup (for_in tags).
Proof.
  intros Hown Hproto. unfold for_in. apply NoDup_app.
  - exact Hown.
  - destruct (inherited tags) as [p|]; [|constructor].
    apply NoDup_filter. now apply Hproto.
  - intros k Hk Hin. destruct (inherited tags) as [p|]; [|contradiction].
    apply filter_In in Hin as [_ Hhidden].
    apply has_true in Hk. now rewrite Hk in Hhidden.
Qed.

Lemma laddr_tree_paths byPrefix :
  map fst (laddr_tree byPrefix) =
  flat_map (fun prefix =>
              map (fun tag => prefix ++ "/" ++ tag ++ ".toml")
                  (for_in (tags_of prefix byPrefix)))
           (keys byPrefix).
Proof.
  unfold laddr_tree. fold tags_of.
  induction (keys byPrefix) as [|p ps IH]; [reflexivity|].
  cbn [flat_map]. rewrite map_app, IH, map_map. reflexivity.
Qed.

Lemma path_prefix_inj p p' t t' :
  (p = "tech" \/ p = "topic") -> (p' = "tech" \/ p' = "topic") ->
  p ++ "/" ++ t ++ ".toml" = p' ++ "/" ++ t' ++ ".toml" -> p = p'.
Proof.
  intros [-> | ->] [-> | ->]; simpl; intros H; try reflexivity;
    discriminate.
Qed.

Lemma laddr_tree_NoDup byPrefix :
  well_keyed byPrefix -> NoDup (map fst (laddr_tree byPrefix)).
Proof.
  intros [Hnd Htags]. rewrite laddr_tree_paths.
  assert (Hin : forall p, In p (keys byPrefix) ->
                          exists tags, get p byPrefix = Some tags).
  { intros p Hp. apply has_true in Hp. unfold has in Hp.
    destruct (get p byPrefix); [eauto | discriminate]. }
  apply NoDup_flat_map; [exact Hnd| |].
  - intros p Hp. destruct (Hin p Hp) as [tags Hget].
    unfold tags_of. rewrite Hget.
    destruct (Htags p tags Hget) as [Hown [Hproto _]].
    apply NoDup_map_injective.
    + intros a b _ _ H. apply append_cancel_l in H.
      apply (append_cancel_l "/") in H. now apply append_cancel_r in H.
    + apply for_in_NoDup; [exact Hown|].
      intros q Hq. rewrite (Hproto q Hq).
      repeat constructor; simpl; intuition discriminate.
  - intros p p' z Hp Hp' Hz Hz'.
    destruct (Hin p Hp) as [tags Hget], (Hin p' Hp') as [tags' Hget'].
    apply in_map_iff in Hz as [t [<- _]].
    apply in_map_iff in Hz' as [t' [Heq _]].
    symmetry in Heq.
    eapply path_prefix_inj; [| |exact Heq].
    + now apply (Htags p tags).
    + now apply (Htags p' tags').
Qed.

Lemma laddr_tree_entry byPrefix p t e :
  entry_of p t byPrefix = Some e ->
  In (p ++ "/" ++ t ++ ".toml", serialize (set "handle" VNull (assign [] e)))
     (laddr_tree byPrefix).
Proof.
  unfold entry_of, laddr_tree.
  destruct (get p byPrefix) as [tags|] eqn:Hp; [|discriminate].
  intros Ht. apply in_flat_map. exists p. split.
  - apply has_true. unfold has. now rewrite Hp.
  - rewrite Hp. apply in_map_iff. exists t. split.
    + unfold read. now rewrite Ht.
    + unfold for_in. apply in_or_app. left.
      apply has_true. unfold has. now rewrite Ht.
Qed.

(** A write comes from an own entry, or from a key of a prototype that no
    own entry hides. *)
Lemma laddr_tree_from_entry byPrefix path content :
  In (path, content) (laddr_tree byPrefix) ->
  exists p t,
    path = p ++ "/" ++ t ++ ".toml"
    /\ ((exists e, entry_of p t byPrefix = Some e
                   /\ content = serialize (set "handle" VNull (assign [] e)))
        \/ (exists tags proto,
               get p byPrefix = Some tags
               /\ inherited tags = Some proto
               /\ In t (keys proto) /\ get t (own tags) = None)).
Proof.
  unfold laddr_tree, entry_of. intros Hin.
  apply in_flat_map in Hin as [p [Hp Hin]].
  apply in_map_iff in Hin as [t [Heq Ht]].
  injection Heq as <- <-.
  apply has_true in Hp. unfold has in Hp.
  destruct (get p byPrefix) as [tags|] eqn:Hget; [|discriminate].
  exists p, t. split; [reflexivity|].
  unfold read. destruct (get t (own tags)) as [e|] eqn:He.
  - left. exists e. rewrite Hget. split; [exact He | reflexivity].
  - right. unfold for_in in Ht. apply in_app_or in Ht as [Ht|Ht].
    + apply has_true in Ht. unfold has in Ht. now rewrite He in Ht.
    + destruct (inherited tags) as [proto|] eqn:Hproto; [|contradiction].
      apply filter_In in Ht as [Ht _]. exists tags, proto. auto.
Qed.

(** The entry of a record stays as long as no later accepted record falls
    on it. *)
Lemma entry_kept after : forall st r,
  (forall r', In r' after -> accepted r' = true -> same_entry r r' = false) ->
  entry_of (handle_prefix (Handle r)) (tag_of r)
           (tagsByPrefix (fold_left organize_tag after st))
  = entry_of (handle_prefix (Handle r)) (tag_of r) (tagsByPrefix st).
Proof.
  induction after as [|r' after IH]; intros st r Hlater; simpl;
    [reflexivity|].
  rewrite IH by (intros x Hx; apply Hlater; now right).
  rewrite organize_tag_tags.
  destruct (accepted r') eqn:Hacc; [|reflexivity].
  rewrite entry_of_store.
  specialize (Hlater r' (or_introl eq_refl) Hacc).
  unfold same_entry in Hlater. now rewrite Hlater.
Qed.

(** Every entry comes from an accepted record of the listing whose tag is
    not [__proto__]. *)
Lemma entry_origin data : forall p t e,
  entry_of p t (tagsByPrefix (organize data)) = Some e ->
  exists r, In r data /\ accepted r = true /\ ordinary r = true
            /\ p = handle_prefix (Handle r) /\ t = tag_of r /\ e = entry r.
Proof.
  induction data as [|r data IH] using rev_ind; intros p t e.
  - discriminate.
  - rewrite organize_snoc, organize_tag_tags.
    assert (Hold : entry_of p t (tagsByPrefix (organize data)) = Some e ->
                   exists r0, In r0 (data ++ [r])%list /\ accepted r0 = true
                     /\ ordinary r0 = true
                     /\ p = handle_prefix (Handle r0) /\ t = tag_of r0
                     /\ e = entry r0).
    { intros H. destruct (IH p t e H) as [r0 [Hin Hr0]].
      exists r0. split; [apply in_or_app; now left | exact Hr0]. }
    destruct (accepted r) eqn:Hacc; [|exact Hold].
    rewrite entry_of_store.
    destruct (String.eqb_spec p (handle_prefix (Handle r))) as [->|_];
      [|exact Hold].
    destruct (String.eqb_spec t (tag_of r)) as [->|_]; [|exact Hold].
    simpl. destruct (String.eqb (tag_of r) "__proto__") eqn:Hproto;
      [exact Hold|].
    simpl. intros [= <-]. exists r.
    split; [apply in_or_app; right; now left|].
    unfold ordinary. rewrite Hproto. auto.
Qed.

(** A prototype comes from an accepted record whose tag is [__proto__]. *)
Lemma prototype_origin data : forall p tags proto,
  get p (tagsByPrefix (organize data)) = Some tags ->
  inherited tags = Some proto ->
  exists r, In r data /\ accepted r = true /\ ordinary r = false
            /\ p = handle_prefix (Handle r).
Proof.
  induction data as [|r data IH] using rev_ind; intros p tags proto.
  - discriminate.
  - rewrite organize_snoc, organize_tag_tags.
    assert (Hold : forall tags0,
               get p (tagsByPrefix (organize data)) = Some tags0 ->
               inherited tags0 = Some proto ->
               exists r0, In r0 (data ++ [r])%list /\ accepted r0 = true
                          /\ ordinary r0 = false
                          /\ p = handle_prefix (Handle r0)).
    { intros tags0 H1 H2. destruct (IH p tags0 proto H1 H2) as [r0 [Hin Hr0]].
      exists r0. split; [apply in_or_app; now left | exact Hr0]. }
    destruct (accepted r) eqn:Hacc; [|apply Hold].
    rewrite get_store_prefix.
    destruct (String.eqb_spec p (handle_prefix (Handle r))) as [->|_];
      [|apply Hold].
    intros [= <-]. unfold assign_object.
    destruct (String.eqb (tag_of r) "__proto__") eqn:Hproto; simpl.
    + intros _. exists r. split; [apply in_or_app; right; now left|].
      unfold ordinary. rewrite Hproto. auto.
    + unfold tags_of.
      destruct (get (handle_prefix (Handle r)) (tagsByPrefix (organize data)))
        as [tags0|] eqn:E; [|discriminate].
      now apply Hold.
Qed.

Lemma ordinary_listing_In data r :
  ordinary_listing data = true -> In r data -> accepted r = true ->
  ordinary r = true.
Proof.
  unfold ordinary_listing. rewrite forallb_forall. intros Hall Hin Hacc.
  specialize (Hall r Hin). now rewrite Hacc in Hall.
Qed.

(** In a listing without a [__proto__] tag every write comes from an
    entry. *)
Lemma ordinary_tree_from_entry data path content :
  ordinary_listing data = true ->
  In (path, content) (laddr_tree (tagsByPrefix (organize data))) ->
  exists r, In r data /\ accepted r = true /\ path = tag_path r
            /\ content = serialize (set "handle" VNull (assign [] (entry r))).
Proof.
  intros Hord Hin.
  apply laddr_tree_from_entry in Hin
    as [p [t [-> [[e [He ->]] | [tags [proto [Hget [Hproto _]]]]]]]].
  - apply entry_origin in He as [r [Hr [Hacc [_ [-> [-> ->]]]]]].
    exists r. auto.
  - destruct (prototype_origin data p tags proto Hget Hproto)
      as [r [Hr [Hacc [Hnot _]]]].
    rewrite (ordinary_listing_In data r Hord Hr Hacc) in Hnot. discriminate.
Qed.

Lemma entry_document r :
  set "handle" VNull (assign [] (entry r)) = [("handle", VNull); ("title", Title r)].
Proof. reflexivity. Qed.

Lemma importLaddr_response axios_get source data :
  axios_get (laddr_url source) = Response data ->
  importLaddr axios_get source
  = mkRun (warned (organize data))
          (laddr_tree (tagsByPrefix (organize data)))
          (Resolved (laddr_tree (tagsByPrefix (organize data)))).
Proof. intros H. unfold importLaddr. now rewrite H. Qed.

(** C10. A record that falls on the entry of an earlier one replaces it in
    [tagsByPrefix] before the tree is built, so [importLaddr] gives the
    tree each path once: the paths written are pairwise distinct, and the
    content written at the path of an accepted record is that of the last
    record with its prefix and tag.  (The tag [__proto__] makes no entry:
    the statement about a record's own path leaves it out, and so does the
    statement that every write comes from an accepted record.) *)
Theorem laddr_path_written_once axios_get source (data : list tag_record) :
  axios_get (laddr_url source) = Response data ->
  let run := importLaddr axios_get source in
  NoDup (map fst (written run))
  /\ result run = Resolved (written run)
  /\ (ordinary_listing data = true ->
      forall path content,
        In (path, content) (written run) ->
        exists r, In r data /\ accepted r = true /\ path = tag_path r
                  /\ content = serialize [("handle", VNull); ("title", Title r)])
  /\ (forall before r after,
         data = (before ++ r :: after)%list ->
         accepted r = true -> ordinary r = true ->
         (forall r', In r' after -> accepted r' = true ->
                     same_entry r r' = false) ->
         In (tag_path r, serialize [("handle", VNull); ("title", Title r)])
            (written run)).
Proof.
  intros Hget. cbv zeta. rewrite (importLaddr_response _ _ _ Hget). simpl.
  split; [|split; [|split]].
  - apply laddr_tree_NoDup, well_keyed_organize.
  - reflexivity.
  - intros Hord path content Hin.
    destruct (ordinary_tree_from_entry data path content Hord Hin)
      as [r [Hr [Hacc [-> ->]]]].
    exists r. rewrite entry_document. auto.
  - intros before r after -> Hacc Hordinary Hlater.
    rewrite <- entry_document. apply laddr_tree_entry.
    unfold organize. rewrite fold_left_app. simpl.
    rewrite entry_kept by assumption.
    rewrite organize_tag_tags, Hacc, entry_of_store, !String.eqb_refl.
    unfold ordinary in Hordinary. now rewrite Hordinary.
Qed.

Lemma dropped_tags st r :
  accepted r = false -> tagsByPrefix (organize_tag st r) = tagsByPrefix st.
Proof. intros H. now rewrite organize_tag_tags, H. Qed.

Lemma dropped_tree before r after :
  accepted r = false ->
  laddr_tree (tagsByPrefix (organize (before ++ r :: after)%list))
  = laddr_tree (tagsByPrefix (organize (before ++ after)%list)).
Proof.
  intros H. unfold organize. rewrite !fold_left_app. simpl.
  f_equal. apply fold_organize_tags. now apply dropped_tags.
Qed.

(** C6, as the code has it. A record whose handle has no [.] is dropped
    with the warning of unprefixed tags; a record whose prefix is [event]
    and whose tag is not empty is dropped without a warning; a record with
    a [.] whose prefix is none of [event], [tech], [topic] is dropped with
    one warning.  In each case (and for any [event] prefix) the tree is
    the one built without the record, and the run resolves. *)
Theorem laddr_dropped_records (st : organized) (r : tag_record) :
  let prefix := handle_prefix (Handle r) in
  let warns w :=
    organize_tag st r
    = mkOrganized (tagsByPrefix st) (warned st ++ [w])%list (tagsCount st) in
  (has_dot (Handle r) = false -> warns (unprefixed_warning (Handle r)))
  /\ (prefix = "event" ->
      (exists tag, handle_tag (Handle r) = Some tag /\ tag <> "") ->
      organize_tag st r = st)
  /\ (has_dot (Handle r) = true ->
      prefix <> "event" -> prefix <> "tech" -> prefix <> "topic" ->
      warns (unprefixed_warning (Handle r)) \/ warns (unhandled_warning prefix))
  /\ (has_dot (Handle r) = false \/ prefix = "event"
      \/ (prefix <> "tech" /\ prefix <> "topic") ->
      (forall before after,
          laddr_tree (tagsByPrefix (organize (before ++ r :: after)%list))
          = laddr_tree (tagsByPrefix (organize (before ++ after)%list)))
      /\ forall axios_get source before after,
          axios_get (laddr_url source) = Response (before ++ r :: after)%list ->
          exists tree, result (importLaddr axios_get source) = Resolved tree).
Proof.
  intros prefix warns. subst prefix warns. cbv beta.
  split; [|split; [|split]].
  - intros Hdot. unfold organize_tag.
    now rewrite (handle_tag_no_dot _ Hdot).
  - intros Hprefix [tag [Htag Hne]]. unfold organize_tag.
    rewrite Htag, Hprefix. destruct tag; [contradiction | reflexivity].
  - intros Hdot Hevent Htech Htopic. unfold organize_tag.
    destruct (handle_tag (Handle r)) as [[|c t]|]; [now left| |now left].
    apply String.eqb_neq in Hevent, Htech, Htopic.
    rewrite Hevent, Htech, Htopic. now right.
  - intros Hcase.
    assert (Hacc : accepted r = false).
    { unfold accepted.
      destruct Hcase as [Hdot | [Hevent | [Htech Htopic]]].
      - now rewrite (handle_tag_no_dot _ Hdot).
      - rewrite Hevent. now destruct (handle_tag (Handle r)) as [[|c t]|].
      - apply String.eqb_neq in Htech, Htopic. rewrite Htech, Htopic.
        now destruct (handle_tag (Handle r)) as [[|c t]|]. }
    split.
    + intros before after. now apply dropped_tree.
    + intros axios_get source before after Hget. unfold importLaddr.
      rewrite Hget. simpl. eauto.
Qed.

(** C2. A handle with more than one [.]: [split('.', 2)] keeps the first
    two pieces and drops the rest, so the tag is not what follows the
    first [.] and the path is not the one of the whole tag. *)
Theorem laddr_handle_with_two_dots :
  handle_prefix "tech.node.js" = "tech"
  /\ handle_tag "tech.node.js" = Some "node"
  /\ after_first_dot "tech.node.js" = Some "node.js"
  /\ map fst (written (importLaddr
                         (fun _ => Response [mkTag "tech.node.js" (VStr "Node.js")])
                         (Some "example.org")))
     = ["tech/node.toml"].
Proof. repeat split. Qed.

(** C5. With no source, [importMatchmaker] and [importDemocracyLab] use
    their default location, and [importLaddr], which has none, asks the
    host named [undefined]. *)
Theorem laddr_has_no_default_source :
  matchmaker_url None = matchmaker_default
  /\ democracylab_url None = democracylab_default
  /\ laddr_url None = "http://undefined/tags"
  /\ forall axios_get,
      importLaddr axios_get None = importLaddr axios_get (Some "undefined").
Proof. repeat split. Qed.

(* ================================================================== *)
(** * CSV adapter *)

(** C3. A header with two runs of white space: the pattern [/\s+/] has no
    [g] flag and only the first run becomes an underscore.  The header of
    the description's example has one run and no more. *)
Theorem fieldName_first_run_only :
  fieldName "Date Of Birth" = "date_of birth"
  /\ fieldName_described "Date Of Birth" = "date_of_birth"
  /\ fieldName "Priority (1-5)" = "priority".
Proof. repeat split. Qed.

(** C4. A category with two runs of white space: only the first run
    becomes a hyphen, in the directory and so in the path written. *)
Theorem categoryDir_first_run_only :
  categoryDir "Areas Of Interest" = "areas-of interest"
  /\ categoryDir_described "Areas Of Interest" = "areas-of-interest"
  /\ categoryDir "Health Care(s)" = "health-cares"
  /\ map fst (written (importDemocracyLab
                         (fun _ => Response
                            [Data [("Canonical Name", "water");
                                   ("Category", "Areas Of Interest")];
                             End])
                         None))
     = ["areas-of interest/water.toml"].
Proof. repeat split. Qed.

Lemma fold_data rows : forall st,
  fold_left on_event (map Data rows) st
  = mkParsing (tags st ++ map row_tagData rows)%list (tree st) (promise st).
Proof.
  induction rows as [|row rows IH]; intros [tags tree promise]; simpl.
  - now rewrite app_nil_r.
  - rewrite IH. simpl. now rewrite <- app_assoc.
Qed.

(** C9. When [axios.get] fails, each adapter's run is rejected with the
    error and nothing is written to the tree; when the CSV parser reports
    an error instead of the end of the rows, the run is rejected with it
    and nothing is written either.  A rejected run is never a finalized
    tree. *)
Theorem failed_fetch_rejects_the_run :
  (forall axios_get source err,
      axios_get (laddr_url source) = RequestFailed err ->
      importLaddr axios_get source = mkRun [] [] (Rejected err))
  /\ (forall axios_get source err,
         axios_get (matchmaker_url source) = RequestFailed err ->
         importMatchmaker axios_get source = mkRun [] [] (Rejected err))
  /\ (forall axios_get source err,
         axios_get (democracylab_url source) = RequestFailed err ->
         let r := importDemocracyLab axios_get source in
         written r = [] /\ result r = Rejected err)
  /\ (forall axios_get source rows err,
         axios_get (democracylab_url source)
         = Response (map Data rows ++ [Error err])%list ->
         let r := importDemocracyLab axios_get source in
         written r = [] /\ result r = Rejected err).
Proof.
  split; [|split; [|split]].
  - intros axios_get source err H. unfold importLaddr. now rewrite H.
  - intros axios_get source err H. unfold importMatchmaker. now rewrite H.
  - intros axios_get source err H. unfold importDemocracyLab. now rewrite H.
  - intros axios_get source rows err H. unfold importDemocracyLab.
    rewrite H, fold_left_app, fold_data. simpl. auto.
Qed.

(* ================================================================== *)
(** * Handles, paths and counts of the handle-prefixed adapter *)

Lemma append_nil_r (s : string) : s ++ "" = s.
Proof. induction s as [|c s IH]; simpl; [reflexivity | now rewrite IH]. Qed.

Lemma join_cons sep x h t :
  join sep (x :: h :: t) = x ++ sep ++ join sep (h :: t).
Proof. reflexivity. Qed.

Lemma join_pieces sep s : join (String sep "") (pieces sep s) = s.
Proof.
  induction s as [|c s IH]; [reflexivity|].
  cbn [pieces]. destruct (Ascii.eqb_spec c sep) as [->|Hne].
  - destruct (pieces_cons sep s) as [h [t Hp]]. rewrite Hp in *.
    rewrite join_cons, IH. reflexivity.
  - destruct (pieces_cons sep s) as [h [t Hp]]. rewrite Hp in *.
    destruct t as [|h' t].
    + simpl in *. now rewrite IH.
    + rewrite join_cons in *. simpl. now rewrite <- IH.
Qed.

Lemma pieces_dot_free s : Forall (fun p => has_dot p = false) (pieces "." s).
Proof.
  induction s as [|c s IH]; [repeat constructor|].
  cbn [pieces]. destruct (Ascii.eqb c ".") eqn:Hc.
  - constructor; [reflexivity | exact IH].
  - destruct (pieces "." s) as [|h t]; [repeat constructor; simpl; now rewrite Hc|].
    inversion IH as [|? ? Hh Ht]; subst.
    constructor; [|exact Ht]. simpl. now rewrite Hc, Hh.
Qed.

Lemma handle_pieces h t :
  handle_tag h = Some t ->
  exists rest, pieces "." h = handle_prefix h :: t :: rest.
Proof.
  unfold handle_tag, handle_prefix, split.
  destruct (pieces "." h) as [|p [|t' rest]]; simpl; try discriminate.
  intros [= ->]. eauto.
Qed.

Lemma handle_tag_dot_free h t :
  handle_tag h = Some t ->
  has_dot (handle_prefix h) = false /\ has_dot t = false.
Proof.
  intros Htag. destruct (handle_pieces h t Htag) as [rest Hp].
  pose proof (pieces_dot_free h) as Hfree. rewrite Hp in Hfree.
  inversion Hfree as [|? ? Hprefix Hfree']; subst.
  inversion Hfree' as [|? ? Ht _]; subst. auto.
Qed.

(** X1. What [split('.', 2)] makes of a handle that has a tag: neither the
    prefix nor the tag holds a dot, and the handle is the prefix, a dot,
    the tag, and then nothing or a dot and more. *)
Theorem handle_is_prefix_dot_tag (h t : string) :
  handle_tag h = Some t ->
  has_dot (handle_prefix h) = false
  /\ has_dot t = false
  /\ exists rest,
      h = handle_prefix h ++ "." ++ t ++ rest
      /\ (rest = "" \/ exists more, rest = "." ++ more).
Proof.
  intros Htag. destruct (handle_pieces h t Htag) as [rest Hp].
  destruct (handle_tag_dot_free h t Htag) as [Hprefix Ht].
  split; [exact Hprefix|]. split; [exact Ht|].
  pose proof (join_pieces "." h) as Hjoin. rewrite Hp, join_cons in Hjoin.
  destruct rest as [|r rest].
  - exists "". split; [|now left].
    rewrite append_nil_r. symmetry. exact Hjoin.
  - exists ("." ++ join "." (r :: rest)). split; [|right; eauto].
    rewrite <- Hjoin at 1. rewrite join_cons. reflexivity.
Qed.


Lemma pieces_after_first_dot h : forall t,
  after_first_dot h = Some t -> exists p, pieces "." h = p :: pieces "." t.
Proof.
  induction h as [|c h IH]; intros t; simpl; [discriminate|].
  destruct (Ascii.eqb c ".").
  - intros [= ->]. eauto.
  - intros H. destruct (IH t H) as [p ->]. eauto.
Qed.

(** X2. A handle with one dot loses nothing: its tag is all that follows
    the dot and the handle is the prefix, the dot and the tag.  With more
    dots the tag is never all that follows the first one. *)
Theorem handle_with_one_dot (h t : string) :
  after_first_dot h = Some t ->
  (has_dot t = false ->
   handle_tag h = Some t /\ h = handle_prefix h ++ "." ++ t)
  /\ (has_dot t = true -> handle_tag h <> Some t).
Proof.
  intros Hafter. split.
  - intros Hdot.
    destruct (pieces_after_first_dot h t Hafter) as [p Hp].
    rewrite (pieces_no_dot t Hdot) in Hp.
    assert (Htag : handle_tag h = Some t).
    { unfold handle_tag, split. now rewrite Hp. }
    split; [exact Htag|].
    pose proof (join_pieces "." h) as Hjoin. rewrite Hp in Hjoin.
    unfold handle_prefix, split. rewrite Hp. simpl. symmetry. exact Hjoin.
  - intros Hdot Htag.
    destruct (handle_tag_dot_free h t Htag) as [_ Hfree].
    congruence.
Qed.

Lemma accepted_tag r :
  accepted r = true ->
  handle_tag (Handle r) = Some (tag_of r) /\ tag_of r <> "".
Proof.
  unfold accepted, tag_of.
  destruct (handle_tag (Handle r)) as [[|c t]|]; try discriminate.
  intros _. split; [reflexivity | discriminate].
Qed.

(** X3. Every path [importLaddr] writes is [tech/<tag>.toml] or
    [topic/<tag>.toml], the tag being non-empty and without a dot. *)
Theorem laddr_paths_shape (data : list tag_record) (path content : string) :
  In (path, content) (laddr_tree (tagsByPrefix (organize data))) ->
  exists prefix tag,
    path = prefix ++ "/" ++ tag ++ ".toml"
    /\ (prefix = "tech" \/ prefix = "topic")
    /\ tag <> "" /\ has_dot tag = false.
Proof.
  intros Hin.
  apply laddr_tree_from_entry in Hin
    as [p [t [-> [[e [He _]] | [tags [proto [Hget [Hproto [Ht _]]]]]]]]].
  - apply entry_origin in He as [r [_ [Hacc [_ [-> [-> _]]]]]].
    exists (handle_prefix (Handle r)), (tag_of r).
    destruct (accepted_tag r Hacc) as [Htag Hne].
    split; [reflexivity|]. split; [now apply accepted_prefix|].
    split; [exact Hne|]. now apply (handle_tag_dot_free (Handle r)).
  - destruct (well_keyed_organize data) as [_ Htags].
    destruct (Htags p tags Hget) as [_ [Hkeys Hprefix]].
    rewrite (Hkeys proto Hproto) in Ht.
    exists p, t. split; [reflexivity|]. split; [exact Hprefix|].
    destruct Ht as [<- | [<- | []]]; split; (discriminate || reflexivity).
Qed.

Lemma title_only_bytes title :
  serialize [("handle", VNull); ("title", title)] = serialize [("title", title)].
Proof.
  rewrite (serialize_without_nulls [("handle", VNull); ("title", title)]).
  - rewrite (serialize_without_nulls [("title", title)]).
    + reflexivity.
    + repeat constructor. intros [].
  - repeat constructor; simpl; intuition discriminate.
Qed.

(** X4. In a listing where no accepted record has the tag [__proto__],
    the bytes [importLaddr] writes for a tag are those of its title alone:
    each content written is the serialisation of [{title}] of an accepted
    record of the listing, the handle never being part of it. *)
Theorem laddr_content_is_title axios_get source (data : list tag_record)
    (path content : string) :
  axios_get (laddr_url source) = Response data ->
  ordinary_listing data = true ->
  In (path, content) (written (importLaddr axios_get source)) ->
  exists r, In r data /\ accepted r = true /\ path = tag_path r
            /\ content = serialize [("title", Title r)].
Proof.
  intros Hget Hord. rewrite (importLaddr_response _ _ _ Hget). simpl.
  intros Hin.
  destruct (ordinary_tree_from_entry data path content Hord Hin)
    as [r [Hr [Hacc [-> ->]]]].
  exists r. rewrite entry_document, title_only_bytes. auto.
Qed.

Lemma accepted_not_skipped r : accepted r = true -> silently_skipped r = false.
Proof.
  unfold accepted, silently_skipped.
  destruct (handle_tag (Handle r)) as [[|c t]|]; try discriminate.
  rewrite orb_true_iff, !String.eqb_eq. intros [-> | ->]; reflexivity.
Qed.

Lemma organize_tag_counts st r :
  tagsCount (organize_tag st r)
  = tagsCount st + (if accepted r then 1 else 0)
  /\ length (warned (organize_tag st r))
     = length (warned st)
       + (if accepted r || silently_skipped r then 0 else 1).
Proof.
  unfold organize_tag, accepted, silently_skipped.
  destruct (handle_tag (Handle r)) as [[|c t]|]; simpl;
    rewrite ?length_app; simpl; try (split; lia).
  destruct (String.eqb_spec (handle_prefix (Handle r)) "event") as [->|_];
    simpl; [split; lia|].
  destruct (String.eqb (handle_prefix (Handle r)) "tech"),
           (String.eqb (handle_prefix (Handle r)) "topic"); simpl;
    rewrite ?length_app; simpl; split; lia.
Qed.

Lemma tagsCount_accepted data :
  tagsCount (organize data) = length (filter accepted data).
Proof.
  induction data as [|r data IH] using rev_ind; [reflexivity|].
  rewrite organize_snoc, filter_app, length_app.
  destruct (organize_tag_counts (organize data) r) as [-> _].
  rewrite IH. simpl. destruct (accepted r); reflexivity.
Qed.

(** X5. Every record of the listing is counted once: it adds one to
    [tagsCount] when accepted, gives one warning when dropped for its
    handle or prefix, or is an [event] tag skipped without a word. *)
Theorem laddr_records_accounted (data : list tag_record) :
  let st := organize data in
  tagsCount st = length (filter accepted data)
  /\ length (warned st)
     = length (filter (fun r => negb (accepted r || silently_skipped r)) data)
  /\ tagsCount st + length (warned st)
     + length (filter silently_skipped data) = length data.
Proof.
  cbv zeta.
  induction data as [|r data [IHc [IHw IHsum]]] using rev_ind.
  - repeat split.
  - rewrite organize_snoc, !filter_app, !length_app.
    destruct (organize_tag_counts (organize data) r) as [-> ->].
    rewrite IHc, IHw in *. simpl.
    destruct (accepted r) eqn:Hacc.
    + rewrite (accepted_not_skipped r Hacc). simpl. repeat split; lia.
    + destruct (silently_skipped r); simpl; repeat split; lia.
Qed.


Lemma tag_path_same_entry r r' :
  accepted r = true -> accepted r' = true ->
  tag_path r = tag_path r' -> same_entry r r' = true.
Proof.
  intros Hacc Hacc' Hpath. unfold tag_path in Hpath.
  pose proof (path_prefix_inj _ _ _ _ (accepted_prefix r Hacc)
                (accepted_prefix r' Hacc') Hpath) as Hprefix.
  rewrite Hprefix in Hpath.
  apply append_cancel_l in Hpath. apply (append_cancel_l "/") in Hpath.
  apply append_cancel_r in Hpath.
  unfold same_entry. now rewrite Hprefix, Hpath, !String.eqb_refl.
Qed.

(** X6. Two accepted records are filed at the same path exactly when they
    have the same prefix and the same tag. *)
Theorem laddr_same_path_same_entry (r r' : tag_record) :
  accepted r = true -> accepted r' = true ->
  (tag_path r = tag_path r' <-> same_entry r r' = true).
Proof.
  intros Hacc Hacc'. split; [now apply tag_path_same_entry|].
  unfold same_entry, tag_path.
  rewrite andb_true_iff, !String.eqb_eq. intros [-> ->]. reflexivity.
Qed.

Lemma accepted_has_entry data : forall r,
  In r data -> accepted r = true -> ordinary r = true ->
  exists e, entry_of (handle_prefix (Handle r)) (tag_of r)
                     (tagsByPrefix (organize data)) = Some e.
Proof.
  induction data as [|r' data IH] using rev_ind; intros r Hin Hacc Hord;
    [contradiction|].
  rewrite organize_snoc, organize_tag_tags.
  apply in_app_or in Hin as [Hin | [<- | []]].
  - destruct (IH r Hin Hacc Hord) as [e He].
    destruct (accepted r'); [|eauto].
    rewrite entry_of_store.
    destruct (_ && _); eauto.
  - rewrite Hacc, entry_of_store, !String.eqb_refl.
    unfold ordinary in Hord. rewrite Hord. simpl. eauto.
Qed.

Lemma accepted_path_written data r :
  In r data -> accepted r = true -> ordinary r = true ->
  In (tag_path r) (map fst (laddr_tree (tagsByPrefix (organize data)))).
Proof.
  intros Hin Hacc Hord.
  destruct (accepted_has_entry data r Hin Hacc Hord) as [e He].
  apply laddr_tree_entry in He.
  apply in_map_iff. eexists. split; [|exact He]. reflexivity.
Qed.

Lemma written_path_accepted data path :
  ordinary_listing data = true ->
  In path (map fst (laddr_tree (tagsByPrefix (organize data)))) ->
  In path (map tag_path (filter accepted data)).
Proof.
  intros Hord Hin. apply in_map_iff in Hin as [[p c] [<- Hin]].
  destruct (ordinary_tree_from_entry data p c Hord Hin)
    as [r [Hr [Hacc [-> _]]]].
  apply in_map_iff. exists r. split; [reflexivity|].
  apply filter_In. auto.
Qed.

(** X7. The path of every accepted record whose tag is not [__proto__] is
    written by [importLaddr]; and in a listing where no accepted record has
    that tag, the number of documents written never exceeds [tagsCount],
    the total given to the progress bar, the two being equal exactly when
    the accepted records have pairwise distinct paths. *)
Theorem laddr_written_count axios_get source (data : list tag_record) :
  axios_get (laddr_url source) = Response data ->
  let st := organize data in
  let written := written (importLaddr axios_get source) in
  (forall r, In r data -> accepted r = true -> ordinary r = true ->
             In (tag_path r) (map fst written))
  /\ (ordinary_listing data = true ->
      length written <= tagsCount st
      /\ (length written = tagsCount st
          <-> NoDup (map tag_path (filter accepted data)))).
Proof.
  intros Hget. cbv zeta. rewrite (importLaddr_response _ _ _ Hget). simpl.
  split; [intros r; apply accepted_path_written|].
  intros Hord.
  pose proof (laddr_tree_NoDup _ (well_keyed_organize data)) as Hnd.
  assert (Hlen : length (map tag_path (filter accepted data))
                 = tagsCount (organize data))
    by now rewrite length_map, tagsCount_accepted.
  assert (Hle : length (laddr_tree (tagsByPrefix (organize data)))
                <= tagsCount (organize data)).
  { rewrite <- Hlen, <- (length_map fst).
    apply NoDup_incl_length; [exact Hnd|].
    intros path. now apply written_path_accepted. }
  split; [exact Hle|].
  split.
  - intros Heq.
    apply NoDup_incl_NoDup
      with (l := map fst (laddr_tree (tagsByPrefix (organize data)))).
    + exact Hnd.
    + rewrite Hlen, length_map. lia.
    + intros path. now apply written_path_accepted.
  - intros Hnd'. apply Nat.le_antisymm; [exact Hle|].
    rewrite <- Hlen, <- (length_map fst).
    apply NoDup_incl_length; [exact Hnd'|].
    intros path Hin. apply in_map_iff in Hin as [r [<- Hr]].
    apply filter_In in Hr as [Hr Hacc].
    apply accepted_path_written; [assumption..|].
    now apply (ordinary_listing_In data).
Qed.

(** A record tagged [__proto__] sets the prototype of the tags of its
    prefix, and the prototype stays. *)
Lemma prototype_stays after : forall st p tags proto,
  get p (tagsByPrefix st) = Some tags -> inherited tags = Some proto ->
  exists tags' proto',
    get p (tagsByPrefix (fold_left organize_tag after st)) = Some tags'
    /\ inherited tags' = Some proto'.
Proof.
  induction after as [|r after IH]; intros st p tags proto Hget Hproto;
    simpl; [eauto|].
  destruct (accepted r) eqn:Hacc.
  - pose proof (organize_tag_tags st r) as Hstep. rewrite Hacc in Hstep.
    destruct (String.eqb_spec p (handle_prefix (Handle r))) as [->|Hne].
    + assert (Hnew : exists proto0,
                 inherited (assign_object (tag_of r) (entry r)
                              (tags_of (handle_prefix (Handle r))
                                       (tagsByPrefix st))) = Some proto0).
      { unfold tags_of. rewrite Hget. unfold assign_object.
        destruct (String.eqb (tag_of r) "__proto__"); simpl; eauto. }
      destruct Hnew as [proto0 Hnew].
      eapply IH; [|exact Hnew].
      rewrite Hstep, get_store_prefix, String.eqb_refl. reflexivity.
    + eapply IH; [|exact Hproto].
      rewrite Hstep, get_store_prefix.
      destruct (String.eqb_spec p (handle_prefix (Handle r)));
        [contradiction | exact Hget].
  - eapply IH; [|exact Hproto].
    pose proof (organize_tag_tags st r) as Hstep. rewrite Hacc in Hstep.
    now rewrite Hstep.
Qed.

Lemma prototype_set data r :
  In r data -> accepted r = true -> ordinary r = false ->
  exists tags proto,
    get (handle_prefix (Handle r)) (tagsByPrefix (organize data)) = Some tags
    /\ inherited tags = Some proto.
Proof.
  intros Hin Hacc Hord. apply in_split in Hin as [before [after ->]].
  unfold organize. rewrite fold_left_app. simpl.
  pose proof (organize_tag_tags
                (fold_left organize_tag before (mkOrganized [] [] 0)) r)
    as Hstep.
  rewrite Hacc in Hstep.
  eapply prototype_stays.
  - rewrite Hstep, get_store_prefix, String.eqb_refl. reflexivity.
  - unfold assign_object. unfold ordinary in Hord.
    apply negb_false_iff in Hord. rewrite Hord. reflexivity.
Qed.

(** X19. No document is ever written at [tech/__proto__.toml] or
    [topic/__proto__.toml]: assigning the key [__proto__] sets the
    prototype of the tags of the prefix instead of adding a tag.  The
    [for..in] loop then reaches the keys of the prototype: where a record
    tagged [__proto__] was accepted and no accepted record of its prefix has
    the tag [handle], a document is written at [<prefix>/handle.toml], and
    likewise for [title]. *)
Theorem laddr_proto_tag axios_get source (data : list tag_record) :
  axios_get (laddr_url source) = Response data ->
  let paths := map fst (written (importLaddr axios_get source)) in
  ~ In "tech/__proto__.toml" paths
  /\ ~ In "topic/__proto__.toml" paths
  /\ (forall r name,
         In r data -> accepted r = true -> tag_of r = "__proto__" ->
         name = "handle" \/ name = "title" ->
         (forall r', In r' data -> accepted r' = true ->
                     handle_prefix (Handle r') = handle_prefix (Handle r) ->
                     tag_of r' <> name) ->
         In (handle_prefix (Handle r) ++ "/" ++ name ++ ".toml") paths).
Proof.
  intros Hget. cbv zeta. rewrite (importLaddr_response _ _ _ Hget). simpl.
  assert (Hnone : forall p, p = "tech" \/ p = "topic" ->
            ~ In (p ++ "/__proto__.toml")
                 (map fst (laddr_tree (tagsByPrefix (organize data))))).
  { intros p Hp Hin. apply in_map_iff in Hin as [[path c] [Hpath Hin]].
    simpl in Hpath. subst path.
    apply laddr_tree_from_entry in Hin
      as [p' [t [Heq [[e [He _]] | [tags [proto [Hg [Hproto [Ht _]]]]]]]]].
    - apply entry_origin in He as [r [_ [Hacc [Hord [-> [-> _]]]]]].
      change (p ++ "/__proto__.toml")
        with (p ++ "/" ++ "__proto__" ++ ".toml") in Heq.
      pose proof (path_prefix_inj _ _ _ _ Hp (accepted_prefix r Hacc) Heq)
        as Hprefix.
      rewrite Hprefix in Heq.
      apply append_cancel_l in Heq. apply (append_cancel_l "/") in Heq.
      apply append_cancel_r in Heq.
      unfold ordinary in Hord. rewrite <- Heq in Hord. discriminate.
    - destruct (well_keyed_organize data) as [_ Htags].
      destruct (Htags p' tags Hg) as [_ [Hkeys Hprefix]].
      rewrite (Hkeys proto Hproto) in Ht.
      change (p ++ "/__proto__.toml")
        with (p ++ "/" ++ "__proto__" ++ ".toml") in Heq.
      pose proof (path_prefix_inj _ _ _ _ Hp Hprefix Heq) as Hpp.
      rewrite Hpp in Heq.
      apply append_cancel_l in Heq. apply (append_cancel_l "/") in Heq.
      apply append_cancel_r in Heq.
      destruct Ht as [<- | [<- | []]]; discriminate. }
  split; [apply (Hnone "tech"); now left|].
  split; [apply (Hnone "topic"); now right|].
  intros r name Hin Hacc Htag Hname Hfree.
  assert (Hord : ordinary r = false)
    by (unfold ordinary; now rewrite Htag).
  destruct (prototype_set data r Hin Hacc Hord) as [tags [proto [Hg Hproto]]].
  destruct (well_keyed_organize data) as [_ Htags].
  destruct (Htags _ tags Hg) as [_ [Hkeys _]].
  assert (Hown : get name (own tags) = None).
  { destruct (get name (own tags)) as [e|] eqn:He; [|reflexivity].
    assert (Hentry : entry_of (handle_prefix (Handle r)) name
                       (tagsByPrefix (organize data)) = Some e)
      by (unfold entry_of; now rewrite Hg).
    apply entry_origin in Hentry as [r' [Hr' [Hacc' [_ [Hp' [Ht' _]]]]]].
    exfalso. apply (Hfree r' Hr' Hacc'); congruence. }
  rewrite laddr_tree_paths. apply in_flat_map.
  exists (handle_prefix (Handle r)). split.
  - apply has_true. unfold has. now rewrite Hg.
  - apply in_map_iff. exists name. split; [reflexivity|].
    unfold tags_of. rewrite Hg. unfold for_in. apply in_or_app. right.
    rewrite Hproto. apply filter_In. split.
    + rewrite (Hkeys proto Hproto). destruct Hname as [-> | ->]; simpl; auto.
    + unfold has. now rewrite Hown.
Qed.


(* ================================================================== *)
(** * Rows, documents and events of the CSV adapter *)

Lemma last_value_from (f : string) (row : obj string) : forall init,
  fold_left (fun found kv =>
               if String.eqb (fieldName (fst kv)) f then Some (snd kv)
               else found) row init
  = match last_value f row with Some y => Some y | None => init end.
Proof.
  unfold last_value.
  induction row as [|[c x] row IH]; intros init; simpl; [reflexivity|].
  rewrite IH. rewrite (IH (if String.eqb (fieldName c) f then Some x else None)).
  destruct (fold_left _ row None); [reflexivity|].
  now destruct (String.eqb (fieldName c) f).
Qed.

Lemma get_assign_string k x acc f :
  get f (assign_string k x acc)
  = if String.eqb f k && negb (String.eqb k "__proto__")
    then Some (VStr x) else get f acc.
Proof.
  unfold assign_string. destruct (String.eqb k "__proto__"); simpl.
  - now rewrite andb_false_r.
  - now rewrite andb_true_r, get_set.
Qed.

Lemma row_fold_get (row l : obj string) (f : string) : forall acc,
  (forall c x, In (c, x) l -> get c row = Some x) ->
  get f (fold_left (fun tagData columnName =>
                      match get columnName row with
                      | Some x => assign_string (fieldName columnName) x tagData
                      | None => tagData
                      end) (keys l) acc)
  = if String.eqb f "__proto__" then get f acc
    else match last_value f l with
         | Some x => Some (VStr x)
         | None => get f acc
         end.
Proof.
  induction l as [|[c x] l IH]; intros acc Hrow;
    [simpl; now destruct (String.eqb f "__proto__")|].
  cbn [keys map fst fold_left].
  rewrite (Hrow c x) by now left.
  rewrite IH by (intros c' x' Hin; apply Hrow; now right).
  assert (Hlast : last_value f ((c, x) :: l)
                  = match last_value f l with
                    | Some y => Some y
                    | None => if String.eqb (fieldName c) f then Some x
                              else None
                    end)
    by (unfold last_value at 1; simpl; apply last_value_from).
  rewrite Hlast, get_assign_string. clear IH Hlast.
  destruct (String.eqb_spec f "__proto__") as [->|Hf].
  - destruct (String.eqb_spec "__proto__" (fieldName c)) as [<-|Hne];
      reflexivity.
  - destruct (last_value f l); [reflexivity|].
    rewrite (String.eqb_sym f).
    destruct (String.eqb_spec (fieldName c) f) as [Heq|Hne]; [|reflexivity].
    destruct (String.eqb_spec (fieldName c) "__proto__"); [congruence|].
    reflexivity.
Qed.

Lemma row_tagData_get row f :
  NoDup (keys row) ->
  get f (row_tagData row)
  = if String.eqb f "__proto__" then None
    else option_map VStr (last_value f row).
Proof.
  intros Hnd. unfold row_tagData.
  rewrite row_fold_get by (intros c x; now apply In_get).
  destruct (String.eqb f "__proto__"); [reflexivity|].
  now destruct (last_value f row).
Qed.

Lemma last_value_None f (row : obj string) :
  last_value f row = None <-> forall c, In c (keys row) -> fieldName c <> f.
Proof.
  unfold last_value.
  induction row as [|[c x] row IH]; simpl; [tauto|].
  rewrite last_value_from. fold (last_value f row) in *.
  destruct (last_value f row) as [y|] eqn:E.
  - split; [discriminate|]. intros H. exfalso.
    assert (Hnone : Some y = @None string)
      by (apply IH; intros c' Hin; apply H; now right).
    discriminate.
  - destruct (String.eqb_spec (fieldName c) f) as [Heq|Hne].
    + split; [discriminate|]. intros H. exfalso. now apply (H c); [left|].
    + split; [|reflexivity]. intros _ c' [<-|Hin]; [exact Hne|].
      now apply IH.
Qed.

(** X8. When two columns of a row give the same field name, the one the
    [for..in] loop reaches later overwrites the other: a field of [tagData]
    holds the value of the last column, in the enumeration order of the
    row object, whose header normalizes to its name.  The name [__proto__]
    is the exception: assigning a string to it does nothing, and [tagData]
    has no such field. *)
Theorem row_last_column_wins (row : obj string) (f : string) :
  distinct (keys row) = true ->
  get f (row_tagData row)
  = if String.eqb f "__proto__" then None
    else option_map VStr (last_value f row).
Proof.
  intros Hd. apply row_tagData_get. now apply distinct_NoDup.
Qed.

Lemma NoDup_keys_assign_string k x acc :
  NoDup (keys acc) -> NoDup (keys (assign_string k x acc)).
Proof.
  unfold assign_string. destruct (String.eqb k "__proto__");
    [trivial | apply NoDup_keys_set].
Qed.

Lemma row_tagData_NoDup row : NoDup (keys (row_tagData row)).
Proof.
  unfold row_tagData. generalize (keys row).
  assert (H : NoDup (keys (@nil (string * value)))) by constructor.
  revert H. generalize (@nil (string * value)).
  intros acc Hacc l. revert acc Hacc.
  induction l as [|c l IH]; intros acc Hacc; simpl; [exact Hacc|].
  apply IH.
  destruct (get c row); [now apply NoDup_keys_assign_string | exact Hacc].
Qed.

Lemma column_named_or_not f (row : obj string) :
  (exists c, In c (keys row) /\ fieldName c = f)
  \/ (forall c, In c (keys row) -> fieldName c <> f).
Proof.
  induction row as [|[c x] row [[c' [Hin Heq]] | Hnone]]; simpl.
  - right. intros c [].
  - left. exists c'. auto.
  - destruct (String.eqb_spec (fieldName c) f) as [Heq|Hne].
    + left. exists c. auto.
    + right. intros c' [<-|Hin]; [exact Hne | now apply Hnone].
Qed.

(** X9. The fields of a row's [tagData] are exactly the normalized headers
    of its columns other than [__proto__], each once, and every value is a
    string. *)
Theorem row_tagData_fields (row : obj string) :
  distinct (keys row) = true ->
  NoDup (keys (row_tagData row))
  /\ (forall f, In f (keys (row_tagData row))
                <-> f <> "__proto__"
                    /\ exists c, In c (keys row) /\ fieldName c = f)
  /\ (forall f v, get f (row_tagData row) = Some v -> exists x, v = VStr x).
Proof.
  intros Hd. apply distinct_NoDup in Hd.
  split; [apply row_tagData_NoDup|]. split.
  - intros f. rewrite <- has_true. unfold has.
    rewrite row_tagData_get by assumption.
    destruct (String.eqb_spec f "__proto__") as [->|Hf].
    { split; [discriminate | now intros [H _]]. }
    destruct (last_value f row) as [x|] eqn:E; simpl.
    + split; [intros _|reflexivity]. split; [exact Hf|].
      destruct (column_named_or_not f row) as [Hsome|Hnone]; [exact Hsome|].
      apply (proj2 (last_value_None f row)) in Hnone. congruence.
    + split; [discriminate|]. intros [_ [c [Hin Heq]]].
      exfalso. now apply (proj1 (last_value_None f row) E c).
  - intros f v. rewrite row_tagData_get by assumption.
    destruct (String.eqb f "__proto__"); [discriminate|].
    destruct (last_value f row); [|discriminate].
    intros [= <-]. eauto.
Qed.


Lemma has_category_entry tagData :
  has_category tagData = true <-> exists w, tag_entry tagData = Some w.
Proof.
  unfold has_category, tag_entry.
  destruct (get "category" tagData) as [[|c|o]|]; split;
    try discriminate; try (intros [w H]; discriminate); eauto.
Qed.

Lemma write_tags_all tags :
  forallb has_category tags = true ->
  exists ws, write_tags tags = (ws, true) /\ map tag_entry tags = map Some ws.
Proof.
  induction tags as [|td tags IH]; simpl; intros Hall.
  - exists []. auto.
  - apply andb_true_iff in Hall as [Hcat Hall].
    apply has_category_entry in Hcat as [w Hw].
    destruct (IH Hall) as [ws [Hws Hmap]].
    exists (w :: ws). rewrite Hw, Hws, Hmap. auto.
Qed.

Lemma write_tags_stops good bad rest :
  forallb has_category good = true -> has_category bad = false ->
  exists ws, write_tags (good ++ bad :: rest)%list = (ws, false)
             /\ map tag_entry good = map Some ws.
Proof.
  intros Hgood Hbad.
  induction good as [|td good IH]; simpl in *.
  - exists []. split; [|reflexivity].
    destruct (tag_entry bad) as [w|] eqn:Hw; [|reflexivity].
    assert (has_category bad = true) by (apply has_category_entry; eauto).
    congruence.
  - apply andb_true_iff in Hgood as [Hcat Hgood].
    apply has_category_entry in Hcat as [w Hw].
    destruct (IH Hgood) as [ws [Hws Hmap]].
    exists (w :: ws). rewrite Hw, Hws, Hmap. auto.
Qed.

(** X10. When the stream gives its rows and then ends, and every row has
    a category, [importDemocracyLab] writes one document per row, in the
    order of the rows, and resolves with that tree; two rows that derive
    the same path are both written. *)
Theorem csv_one_write_per_row axios_get source (rows : list (obj string)) :
  axios_get (democracylab_url source) = Response (map Data rows ++ [End])%list ->
  forallb has_category (map row_tagData rows) = true ->
  let r := importDemocracyLab axios_get source in
  result r = Resolved (written r)
  /\ map Some (written r) = map tag_entry (map row_tagData rows)
  /\ length (written r) = length rows.
Proof.
  intros Hget Hall. cbv zeta. unfold importDemocracyLab.
  rewrite Hget, fold_left_app, fold_data. simpl.
  destruct (write_tags_all _ Hall) as [ws [Hws Hmap]].
  rewrite Hws. simpl. split; [reflexivity|]. split; [now rewrite Hmap|].
  apply (f_equal (@length _)) in Hmap. rewrite !length_map in Hmap.
  now rewrite <- Hmap.
Qed.

(** X11. A row without a category stops the loop of the ['end'] handler:
    the rows before it have been written, nothing after it is, the tree is
    not finalized and the promise of the run is never settled. *)
Theorem csv_row_without_category axios_get source
        (good rest : list (obj string)) (bad : obj string) :
  axios_get (democracylab_url source)
  = Response (map Data (good ++ bad :: rest) ++ [End])%list ->
  forallb has_category (map row_tagData good) = true ->
  has_category (row_tagData bad) = false ->
  let r := importDemocracyLab axios_get source in
  result r = Pending
  /\ map Some (written r) = map tag_entry (map row_tagData good)
  /\ length (written r) = length good.
Proof.
  intros Hget Hgood Hbad. cbv zeta. unfold importDemocracyLab.
  rewrite Hget, fold_left_app, fold_data. simpl.
  rewrite map_app. simpl.
  destruct (write_tags_stops _ _ (map row_tagData rest) Hgood Hbad)
    as [ws [Hws Hmap]].
  rewrite Hws. simpl. split; [reflexivity|]. split; [now rewrite Hmap|].
  apply (f_equal (@length _)) in Hmap. rewrite !length_map in Hmap.
  now rewrite <- Hmap.
Qed.

Lemma settled_stays events : forall st,
  promise st <> Pending ->
  promise (fold_left on_event events st) = promise st.
Proof.
  induction events as [|e events IH]; intros st Hst; [reflexivity|].
  simpl. assert (Hstep : promise (on_event st e) = promise st).
  { destruct e as [row| |err]; simpl.
    - reflexivity.
    - destruct (write_tags (tags st)) as [ws ok]. simpl.
      destruct ok; [|reflexivity]. now destruct (promise st).
    - now destruct (promise st). }
  rewrite IH; [exact Hstep | now rewrite Hstep].
Qed.

Lemma tree_grows events : forall st,
  exists ws, tree (fold_left on_event events st) = (tree st ++ ws)%list.
Proof.
  induction events as [|e events IH]; intros st.
  - exists []. simpl. now rewrite app_nil_r.
  - simpl. destruct (IH (on_event st e)) as [ws ->].
    destruct e as [row| |err]; simpl; eauto.
    destruct (write_tags (tags st)) as [ws' ok]. simpl.
    exists (ws' ++ ws)%list. now rewrite app_assoc.
Qed.

(** X12. The promise of a CSV run is settled once: whatever events follow,
    a resolved or rejected promise stays as it is and what was written to
    the tree stays written.  So when the parser reports an error before
    the end of the rows, the run is rejected with that error even if the
    stream goes on. *)
Theorem csv_promise_settled_once :
  (forall events st,
      promise st <> Pending ->
      promise (fold_left on_event events st) = promise st)
  /\ (forall events st,
         exists ws, tree (fold_left on_event events st) = (tree st ++ ws)%list)
  /\ (forall axios_get source rows err later,
         axios_get (democracylab_url source)
         = Response (map Data rows ++ Error err :: later)%list ->
         result (importDemocracyLab axios_get source) = Rejected err).
Proof.
  split; [intros; now apply settled_stays|].
  split; [intros; apply tree_grows|].
  intros axios_get source rows err later Hget.
  unfold importDemocracyLab.
  rewrite Hget, fold_left_app, fold_data. simpl.
  rewrite settled_stays; simpl; [reflexivity | discriminate].
Qed.

Lemma get_filter_pair {A : Type} (Q : string * A -> bool) (o : obj A) k :
  NoDup (keys o) ->
  get k (filter Q o) =
  match get k o with
  | Some x => if Q (k, x) then Some x else None
  | None => None
  end.
Proof.
  induction o as [|[k' v'] r IH]; simpl; intros Hnd; [reflexivity|].
  apply NoDup_cons_iff in Hnd as [Hnotin Hnd]. specialize (IH Hnd).
  destruct (String.eqb_spec k k') as [->|Hne].
  - destruct (Q (k', v')) eqn:HQ; simpl.
    + now rewrite String.eqb_refl.
    + rewrite IH. apply get_None in Hnotin. now rewrite Hnotin.
  - destruct (Q (k', v')); simpl; [|exact IH].
    destruct (String.eqb_spec k k'); [congruence | exact IH].
Qed.

Lemma tag_document_get tagData k :
  NoDup (keys tagData) ->
  get k (tag_document tagData) =
  if is_optional k then Some (or_null (get k tagData))
  else if String.eqb k "canonical_name" || String.eqb k "category"
       then Some VNull
       else get k tagData.
Proof.
  intros Hnd. unfold tag_document, is_optional.
  rewrite !get_set, get_assign by assumption.
  destruct (String.eqb_spec k "caption") as [->|_]; [reflexivity|].
  destruct (String.eqb_spec k "subcategory") as [->|_]; [reflexivity|].
  destruct (String.eqb_spec k "parent") as [->|_]; [reflexivity|].
  destruct (String.eqb k "canonical_name"); [reflexivity|].
  destruct (String.eqb k "category"); [reflexivity|].
  simpl. now destruct (get k tagData).
Qed.

(** X13. The bytes written for a CSV row are those of the row's fields
    without [category] and [canonical_name], and without [parent],
    [subcategory] and [caption] where they are blank; every other field,
    blank or not, is kept. *)
Theorem csv_document_bytes (tagData : obj value) :
  distinct (keys tagData) = true ->
  serialize (tag_document tagData) = serialize (filter kept_field tagData).
Proof.
  intros Hd. apply distinct_NoDup in Hd.
  apply serialize_ext.
  - apply tag_document_NoDup.
  - now apply NoDup_keys_filter.
  - intros k.
    rewrite !get_without_nulls
      by (apply tag_document_NoDup || now apply NoDup_keys_filter).
    rewrite tag_document_get, get_filter_pair by assumption.
    unfold kept_field, is_optional. cbn [fst snd].
    destruct (String.eqb_spec k "parent") as [->|_];
      [simpl; destruct (get "parent" tagData) as [[|[|c s]|o]|]; reflexivity|].
    destruct (String.eqb_spec k "subcategory") as [->|_];
      [simpl; destruct (get "subcategory" tagData) as [[|[|c s]|o]|];
       reflexivity|].
    destruct (String.eqb_spec k "caption") as [->|_];
      [simpl; destruct (get "caption" tagData) as [[|[|c s]|o]|];
       reflexivity|].
    destruct (String.eqb_spec k "canonical_name") as [->|_];
      [simpl; now destruct (get "canonical_name" tagData)|].
    destruct (String.eqb_spec k "category") as [->|_];
      [simpl; now destruct (get "category" tagData)|].
    simpl. now destruct (get k tagData).
Qed.


(* ================================================================== *)
(** * Field names and category directories *)

Lemma lower_char_idem c : lower_char (lower_char c) = lower_char c.
Proof. destruct c as [[] [] [] [] [] [] [] []]; reflexivity. Qed.

Lemma is_space_lower_char c : is_space (lower_char c) = is_space c.
Proof. destruct c as [[] [] [] [] [] [] [] []]; reflexivity. Qed.

Lemma paren_lower_char c : Ascii.eqb (lower_char c) "(" = Ascii.eqb c "(".
Proof. destruct c as [[] [] [] [] [] [] [] []]; reflexivity. Qed.

Lemma toLowerCase_idem s : toLowerCase (toLowerCase s) = toLowerCase s.
Proof.
  induction s as [|c s IH]; simpl; [reflexivity|].
  now rewrite lower_char_idem, IH.
Qed.

(** X14. Field names and category directories are in lower case: putting
    them in lower case again changes nothing. *)
Theorem names_in_lower_case (text : string) :
  toLowerCase (fieldName text) = fieldName text
  /\ toLowerCase (categoryDir text) = categoryDir text.
Proof.
  unfold fieldName, categoryDir. now rewrite !toLowerCase_idem.
Qed.

Lemma has_space_app a b : has_space (a ++ b) = has_space a || has_space b.
Proof.
  induction a as [|c a IH]; simpl; [reflexivity|].
  now rewrite IH, orb_assoc.
Qed.

Lemma has_space_toLowerCase s : has_space (toLowerCase s) = has_space s.
Proof.
  induction s as [|c s IH]; simpl; [reflexivity|].
  now rewrite is_space_lower_char, IH.
Qed.

Lemma no_run_no_space s : space_runs_from false s = 0 -> has_space s = false.
Proof.
  induction s as [|c s IH]; simpl; [reflexivity|].
  destruct (is_space c); [discriminate | exact IH].
Qed.

Lemma no_space_unchanged r s : forall b,
  has_space s = false -> replace_space_runs_from b r s = s.
Proof.
  induction s as [|c s IH]; intros b; simpl; [reflexivity|].
  destruct (is_space c); [discriminate|].
  simpl. intros H. now rewrite IH.
Qed.

Lemma run_ends r s :
  space_runs_from true s = 0 ->
  replace_space_runs_from true r s = skip_spaces s
  /\ has_space (skip_spaces s) = false.
Proof.
  induction s as [|c s IH]; simpl; [auto|].
  destruct (is_space c) eqn:Hc; simpl.
  - exact IH.
  - intros H. rewrite Hc. apply no_run_no_space in H.
    now rewrite no_space_unchanged.
Qed.

Lemma first_run_is_every_run r s :
  space_runs s <= 1 -> replace_space_run r s = replace_every_space_run r s.
Proof.
  unfold space_runs, replace_every_space_run.
  induction s as [|c s IH]; simpl; [reflexivity|].
  destruct (is_space c); simpl.
  - intros H. assert (H0 : space_runs_from true s = 0) by lia.
    now rewrite (proj1 (run_ends r s H0)).
  - intros H. now rewrite IH.
Qed.

Lemma no_space_after_every_run r s : forall b,
  has_space r = false -> has_space (replace_space_runs_from b r s) = false.
Proof.
  induction s as [|c s IH]; intros b Hr; simpl; [reflexivity|].
  destruct (is_space c) eqn:Hc.
  - rewrite has_space_app, IH by assumption. now destruct b; simpl; rewrite ?Hr.
  - simpl. now rewrite Hc, IH.
Qed.

(** X15. A header whose text before any annotation has at most one run of
    white space gets a field name in which every run is an underscore and
    no white space is left; a category with at most one run gets the
    directory in which every run is a hyphen. *)
Theorem names_with_one_space_run :
  (forall header,
      space_runs (strip_annotation header) <= 1 ->
      fieldName header = fieldName_described header
      /\ has_space (fieldName header) = false)
  /\ (forall category,
         space_runs category <= 1 ->
         categoryDir category = categoryDir_described category).
Proof.
  split.
  - intros header H. unfold fieldName, fieldName_described.
    rewrite (first_run_is_every_run "_" _ H). split; [reflexivity|].
    rewrite has_space_toLowerCase.
    now apply no_space_after_every_run.
  - intros category H. unfold categoryDir, categoryDir_described.
    now rewrite (first_run_is_every_run "-" _ H).
Qed.

Lemma has_paren_skip_spaces s :
  has_paren s = false -> has_paren (skip_spaces s) = false.
Proof.
  induction s as [|c s IH]; simpl; [reflexivity|].
  destruct (is_space c); simpl; [|trivial].
  intros H. apply orb_false_iff in H as [_ H]. auto.
Qed.

Lemma has_paren_replace_space_run s :
  has_paren s = false -> has_paren (replace_space_run "_" s) = false.
Proof.
  induction s as [|c s IH]; simpl; [reflexivity|].
  intros H. apply orb_false_iff in H as [Hc H].
  destruct (is_space c); simpl.
  - now apply has_paren_skip_spaces.
  - now rewrite Hc, IH.
Qed.

Lemma has_paren_toLowerCase s : has_paren (toLowerCase s) = has_paren s.
Proof.
  induction s as [|c s IH]; simpl; [reflexivity|].
  now rewrite paren_lower_char, IH.
Qed.

Lemma has_paren_strip_annotation s :
  no_line_terminator s = true -> has_paren (strip_annotation s) = false.
Proof.
  induction s as [|c s IH]; [reflexivity|].
  intros Hline. cbn [strip_annotation].
  destruct (annotation_here (String c s)) eqn:Hhere; [reflexivity|].
  simpl in Hline. apply andb_true_iff in Hline as [_ Hline].
  simpl. rewrite (IH Hline), orb_false_r.
  destruct (Ascii.eqb_spec c "(") as [->|]; [|reflexivity].
  unfold annotation_here in Hhere. simpl in Hhere. congruence.
Qed.

(** X16. The annotation is stripped from the first parenthesis on: the
    field name of a header that holds no line terminator has no opening
    parenthesis left. *)
Theorem fieldName_without_parenthesis (header : string) :
  no_line_terminator header = true -> has_paren (fieldName header) = false.
Proof.
  intros H. unfold fieldName.
  rewrite has_paren_toLowerCase.
  now apply has_paren_replace_space_run, has_paren_strip_annotation.
Qed.

(* ================================================================== *)
(** * Entry point *)

(** X17. Whatever the source type, a run whose requests fail writes
    nothing and is rejected; a source type that is none of the three is
    rejected as unsupported whatever the requests would give. *)
Theorem importTaxonomy_failures (http : axios) (sourceType : string)
        (source : option string) :
  (sourceType <> "laddr" -> sourceType <> "matchmaker" ->
   sourceType <> "democracylab" ->
   importTaxonomy http sourceType source
   = mkRun [] [] (Rejected "Unsupported source type"))
  /\ ((forall url, exists err, get_tags http url = RequestFailed err) ->
      (forall url, exists err, get_json http url = RequestFailed err) ->
      (forall url, exists err, get_stream http url = RequestFailed err) ->
      written (importTaxonomy http sourceType source) = []
      /\ exists err, result (importTaxonomy http sourceType source)
                     = Rejected err).
Proof.
  unfold importTaxonomy. split.
  - intros H1 H2 H3. apply String.eqb_neq in H1, H2, H3.
    now rewrite H1, H2, H3.
  - intros Htags Hjson Hstream.
    destruct (String.eqb sourceType "laddr").
    { unfold importLaddr. destruct (Htags (laddr_url source)) as [err ->].
      simpl. eauto. }
    destruct (String.eqb sourceType "matchmaker").
    { unfold importMatchmaker.
      destruct (Hjson (matchmaker_url source)) as [err ->]. simpl. eauto. }
    destruct (String.eqb sourceType "democracylab").
    { unfold importDemocracyLab.
      destruct (Hstream (democracylab_url source)) as [err ->]. simpl. eauto. }
    simpl. eauto.
Qed.

(** X18. The reference the handler commits to is [HEAD] or lies under
    [refs/]: a name that is neither is taken as a branch, and a reference
    already in that form is left as it is. *)
Theorem commitRef_is_a_reference (commitTo : string) :
  (commitRef commitTo = "HEAD" \/ startsWith "refs/" (commitRef commitTo) = true)
  /\ commitRef (commitRef commitTo) = commitRef commitTo
  /\ (commitTo <> "HEAD" -> startsWith "refs/" commitTo = false ->
      commitRef commitTo = "refs/heads/" ++ commitTo).
Proof.
  unfold commitRef.
  destruct (String.eqb_spec commitTo "HEAD") as [->|Hne]; simpl.
  - split; [now left|]. split; [reflexivity | congruence].
  - destruct (startsWith "refs/" commitTo) eqn:Hrefs; simpl.
    + rewrite Hrefs. apply String.eqb_neq in Hne. rewrite Hne. simpl.
      split; [now right|]. split; [reflexivity | discriminate].
    + split; [now right|]. split; [reflexivity | reflexivity].
Qed.

End Pipeline.

(* ================================================================== *)
(** * The statements at work on concrete inputs *)

(** The handle [event.] has the prefix [event] and is not dropped
    silently: the test of the tag comes first and warns. *)
Lemma event_prefix_with_empty_tag_warns :
  ~ (forall st r,
        handle_prefix (Handle r) = "event" ->
        warned (organize_tag st r) = warned st).
Proof.
  intros H.
  specialize (H (mkOrganized [] [] 0) (mkTag "event." (VStr "Events")) eq_refl).
  discriminate H.
Qed.

Lemma serialize_order_independent_witness :
  unique_keys (VObj cloud_listed) = true
  /\ same_fields (VObj cloud_listed) (VObj cloud_relisted)
  /\ serialize bare_key quoted cloud_listed
     = serialize bare_key quoted cloud_relisted.
Proof.
  assert (Hsame : same_fields (VObj cloud_listed) (VObj cloud_relisted)).
  { apply same_obj with
      (o1' := [("links", VObj [("wiki", VStr "w"); ("home", VStr "h")]);
               ("title", VStr "Cloud")]).
    - apply perm_swap.
    - repeat constructor.
      apply same_obj with (o1' := [("home", VStr "h"); ("wiki", VStr "w")]).
      + apply perm_swap.
      + repeat constructor. }
  split; [reflexivity|]. split; [exact Hsame|].
  apply (serialize_order_independent bare_key quoted
           cloud_listed cloud_relisted); [reflexivity | exact Hsame].
Defined.


Lemma matchmaker_one_document_per_key_witness :
  distinct (keys clean_water) = true
  /\ map fst (written (importMatchmaker bare_key quoted
                         (fun _ => Response clean_water) None))
     = ["clean-water.toml"]
  /\ result (importMatchmaker bare_key quoted
               (fun _ => Response clean_water) None)
     = Resolved (written (importMatchmaker bare_key quoted
                            (fun _ => Response clean_water) None))
  /\ In ("clean-water.toml",
         serialize bare_key quoted
           (set "class_name" VNull
              (assign [] [("class_name", VStr "CleanWater");
                          ("description", VStr "...")])))
        (written (importMatchmaker bare_key quoted
                    (fun _ => Response clean_water) None))
  /\ "description" <> "class_name"
  /\ get "description"
         (set "class_name" VNull
            (assign [] [("class_name", VStr "CleanWater");
                        ("description", VStr "...")]))
     = Some (VStr "...")
  /\ serialize bare_key quoted
       (set "class_name" VNull
          (assign [] [("class_name", VStr "CleanWater");
                      ("description", VStr "...")]))
     = serialize bare_key quoted [("description", VStr "...")].
Proof.
  destruct (matchmaker_one_document_per_key bare_key quoted
              (fun _ => Response clean_water) None clean_water
              eq_refl eq_refl)
    as [Hpaths [_ [Hres [_ Hdoc]]]].
  split; [reflexivity|]. split; [exact Hpaths|]. split; [exact Hres|].
  destruct (Hdoc "clean-water"
              [("class_name", VStr "CleanWater"); ("description", VStr "...")]
              eq_refl eq_refl) as [Hin [_ [Hfields Hbytes]]].
  split; [exact Hin|].
  assert (Hne : "description" <> "class_name") by discriminate.
  split; [exact Hne|]. split; [|exact Hbytes].
  apply (Hfields "description" Hne).
Defined.

Lemma failed_fetch_rejects_the_run_witness :
  importLaddr bare_key quoted (down _) (Some "example.org")
  = mkRun [] [] (Rejected "ECONNREFUSED")
  /\ importMatchmaker bare_key quoted (down _) None
     = mkRun [] [] (Rejected "ECONNREFUSED")
  /\ result (importDemocracyLab bare_key quoted (down _) None)
     = Rejected "ECONNREFUSED"
  /\ written (importDemocracyLab bare_key quoted
                (fun _ => Response [Data [("Category", "Role")];
                                    Error "bad row"])
                None) = [].
Proof.
  destruct (failed_fetch_rejects_the_run bare_key quoted)
    as [Hladdr [Hmatch [Hdl Hcsv]]].
  split; [|split; [|split]].
  - apply (Hladdr (down _) (Some "example.org") "ECONNREFUSED" eq_refl).
  - apply (Hmatch (down _) None "ECONNREFUSED" eq_refl).
  - apply (Hdl (down _) None "ECONNREFUSED" eq_refl).
  - apply (Hcsv (fun _ => Response [Data [("Category", "Role")]; Error "bad row"])
                None [[("Category", "Role")]] "bad row" eq_refl).
Defined.

Lemma laddr_path_written_once_witness :
  ordinary_listing cloud_twice = true
  /\ NoDup (map fst (written (importLaddr bare_key quoted
                                (fun _ => Response cloud_twice)
                                (Some "example.org"))))
  /\ In ("tech/cloud.toml",
         serialize bare_key quoted
           [("handle", VNull); ("title", VStr "The cloud")])
        (written (importLaddr bare_key quoted
                    (fun _ => Response cloud_twice) (Some "example.org")))
  /\ exists r, In r cloud_twice /\ accepted r = true
               /\ "tech/cloud.toml" = tag_path r.
Proof.
  destruct (laddr_path_written_once bare_key quoted
              (fun _ => Response cloud_twice) (Some "example.org")
              cloud_twice eq_refl)
    as [Hnd [_ [Horigin Hlast]]].
  assert (Hin : In ("tech/cloud.toml",
                    serialize bare_key quoted
                      [("handle", VNull); ("title", VStr "The cloud")])
                   (written (importLaddr bare_key quoted
                               (fun _ => Response cloud_twice)
                               (Some "example.org")))).
  { apply (Hlast [mkTag "tech.cloud" (VStr "Cloud")]
                 (mkTag "tech.cloud" (VStr "The cloud")) []
                 eq_refl eq_refl eq_refl).
    intros r' []. }
  split; [reflexivity|]. split; [exact Hnd|]. split; [exact Hin|].
  destruct (Horigin eq_refl _ _ Hin) as [r [Hr [Hacc [Hpath _]]]].
  exists r. auto.
Defined.

Lemma laddr_dropped_records_witness :
  warned (organize_tag (mkOrganized [] [] 0) (mkTag "orphan" (VStr "Orphan")))
  = ["skipping unprefixed tag: orphan"]
  /\ organize_tag (mkOrganized [] [] 0) (mkTag "event.launch" (VStr "Launch"))
     = mkOrganized [] [] 0
  /\ (organize_tag (mkOrganized [] [] 0) (mkTag "misc.widget" (VStr "Widget"))
      = mkOrganized [] ["skipping unprefixed tag: misc.widget"] 0
      \/ organize_tag (mkOrganized [] [] 0) (mkTag "misc.widget" (VStr "Widget"))
         = mkOrganized [] ["skipping unhandled tag prefix: misc"] 0)
  /\ laddr_tree bare_key quoted
       (tagsByPrefix (organize [mkTag "tech.cloud" (VStr "Cloud");
                                mkTag "event.launch" (VStr "Launch")]))
     = laddr_tree bare_key quoted
         (tagsByPrefix (organize [mkTag "tech.cloud" (VStr "Cloud")]))
  /\ exists tree,
      result (importLaddr bare_key quoted
                (fun _ => Response [mkTag "tech.cloud" (VStr "Cloud");
                                    mkTag "orphan" (VStr "Orphan")])
                (Some "example.org"))
      = Resolved tree.
Proof.
  split; [|split; [|split; [|split]]].
  - destruct (laddr_dropped_records bare_key quoted (mkOrganized [] [] 0)
                (mkTag "orphan" (VStr "Orphan"))) as [Hnodot _].
    rewrite (Hnodot eq_refl). reflexivity.
  - destruct (laddr_dropped_records bare_key quoted (mkOrganized [] [] 0)
                (mkTag "event.launch" (VStr "Launch"))) as [_ [Hevent _]].
    apply (Hevent eq_refl).
    exists "launch". split; [reflexivity | discriminate].
  - destruct (laddr_dropped_records bare_key quoted (mkOrganized [] [] 0)
                (mkTag "misc.widget" (VStr "Widget"))) as [_ [_ [Hother _]]].
    apply (Hother eq_refl); discriminate.
  - destruct (laddr_dropped_records bare_key quoted (mkOrganized [] [] 0)
                (mkTag "event.launch" (VStr "Launch"))) as [_ [_ [_ Hrun]]].
    destruct (Hrun (or_intror (or_introl eq_refl))) as [Htree _].
    apply (Htree [mkTag "tech.cloud" (VStr "Cloud")] []).
  - destruct (laddr_dropped_records bare_key quoted (mkOrganized [] [] 0)
                (mkTag "orphan" (VStr "Orphan"))) as [_ [_ [_ Hrun]]].
    destruct (Hrun (or_introl eq_refl)) as [_ Hresolved].
    apply (Hresolved _ (Some "example.org")
                     [mkTag "tech.cloud" (VStr "Cloud")] [] eq_refl).
Defined.

(* ================================================================== *)
(** * The further statements at work on concrete inputs *)

Lemma handle_is_prefix_dot_tag_witness :
  handle_tag "tech.node.js" = Some "node"
  /\ has_dot "node" = false
  /\ exists rest, "tech.node.js" = handle_prefix "tech.node.js" ++ "." ++ "node" ++ rest.
Proof.
  destruct (handle_is_prefix_dot_tag "tech.node.js" "node" eq_refl)
    as [_ [Htag [rest [Heq _]]]].
  split; [reflexivity|]. split; [exact Htag|]. exists rest. exact Heq.
Defined.

Lemma handle_with_one_dot_witness :
  (after_first_dot "tech.cloud" = Some "cloud" /\ has_dot "cloud" = false
   /\ handle_tag "tech.cloud" = Some "cloud")
  /\ (after_first_dot "tech.node.js" = Some "node.js"
      /\ has_dot "node.js" = true
      /\ handle_tag "tech.node.js" <> Some "node.js").
Proof.
  split.
  - destruct (handle_with_one_dot "tech.cloud" "cloud" eq_refl) as [Hone _].
    destruct (Hone eq_refl) as [Htag _]. auto.
  - destruct (handle_with_one_dot "tech.node.js" "node.js" eq_refl)
      as [_ Hmore].
    split; [reflexivity|]. split; [reflexivity|]. apply (Hmore eq_refl).
Defined.

Lemma cloud_twice_written :
  In ("tech/cloud.toml",
      serialize bare_key quoted [("handle", VNull); ("title", VStr "The cloud")])
     (laddr_tree bare_key quoted (tagsByPrefix (organize cloud_twice))).
Proof. left. reflexivity. Defined.

Lemma laddr_paths_shape_witness :
  exists prefix tag,
    "tech/cloud.toml" = prefix ++ "/" ++ tag ++ ".toml"
    /\ (prefix = "tech" \/ prefix = "topic")
    /\ tag <> "" /\ has_dot tag = false.
Proof.
  apply (laddr_paths_shape bare_key quoted cloud_twice _ _ cloud_twice_written).
Defined.

Lemma laddr_content_is_title_witness :
  ordinary_listing cloud_twice = true
  /\ exists r, In r cloud_twice /\ accepted r = true
               /\ "tech/cloud.toml" = tag_path r
               /\ serialize bare_key quoted
                    [("handle", VNull); ("title", VStr "The cloud")]
                  = serialize bare_key quoted [("title", Title r)].
Proof.
  split; [reflexivity|].
  exact (laddr_content_is_title bare_key quoted
           (fun _ => Response cloud_twice) (Some "example.org") cloud_twice
           _ _ eq_refl eq_refl cloud_twice_written).
Defined.

Lemma laddr_same_path_same_entry_witness :
  accepted (mkTag "tech.cloud" (VStr "Cloud")) = true
  /\ accepted (mkTag "tech.cloud.aws" (VStr "AWS")) = true
  /\ tag_path (mkTag "tech.cloud" (VStr "Cloud"))
     = tag_path (mkTag "tech.cloud.aws" (VStr "AWS")).
Proof.
  split; [reflexivity|]. split; [reflexivity|].
  apply (laddr_same_path_same_entry
           (mkTag "tech.cloud" (VStr "Cloud"))
           (mkTag "tech.cloud.aws" (VStr "AWS")) eq_refl eq_refl).
  reflexivity.
Defined.

Lemma laddr_written_count_witness :
  In (mkTag "tech.cloud" (VStr "Cloud")) cloud_twice
  /\ accepted (mkTag "tech.cloud" (VStr "Cloud")) = true
  /\ ordinary_listing cloud_twice = true
  /\ In "tech/cloud.toml"
        (map fst (written (importLaddr bare_key quoted
                             (fun _ => Response cloud_twice)
                             (Some "example.org"))))
  /\ length (written (importLaddr bare_key quoted
                        (fun _ => Response cloud_twice) (Some "example.org")))
     <= tagsCount (organize cloud_twice).
Proof.
  destruct (laddr_written_count bare_key quoted
              (fun _ => Response cloud_twice) (Some "example.org")
              cloud_twice eq_refl)
    as [Hall Hcount].
  destruct (Hcount eq_refl) as [Hle _].
  assert (Hin : In (mkTag "tech.cloud" (VStr "Cloud")) cloud_twice)
    by (left; reflexivity).
  split; [exact Hin|]. split; [reflexivity|]. split; [reflexivity|].
  split; [exact (Hall _ Hin eq_refl eq_refl) | exact Hle].
Defined.

Lemma laddr_proto_tag_witness :
  accepted (mkTag "tech.__proto__" (VStr "Proto")) = true
  /\ ~ In "tech/__proto__.toml"
          (map fst (written (importLaddr bare_key quoted
                               (fun _ => Response
                                  [mkTag "tech.__proto__" (VStr "Proto")])
                               (Some "example.org"))))
  /\ In "tech/handle.toml"
        (map fst (written (importLaddr bare_key quoted
                             (fun _ => Response
                                [mkTag "tech.__proto__" (VStr "Proto")])
                             (Some "example.org")))).
Proof.
  destruct (laddr_proto_tag bare_key quoted
              (fun _ => Response [mkTag "tech.__proto__" (VStr "Proto")])
              (Some "example.org")
              [mkTag "tech.__proto__" (VStr "Proto")] eq_refl)
    as [Hnone [_ Hkeys]].
  split; [reflexivity|]. split; [exact Hnone|].
  apply (Hkeys (mkTag "tech.__proto__" (VStr "Proto")) "handle"
               (or_introl eq_refl) eq_refl eq_refl (or_introl eq_refl)).
  intros r' [<- | []] _ _. discriminate.
Defined.

Lemma row_last_column_wins_witness :
  distinct (keys [("Name", "first"); ("name (short)", "second")]) = true
  /\ get "name" (row_tagData [("Name", "first"); ("name (short)", "second")])
     = Some (VStr "second")
  /\ distinct (keys [("__Proto__", "x")]) = true
  /\ get "__proto__" (row_tagData [("__Proto__", "x")]) = None.
Proof.
  split; [reflexivity|]. split; [|split; [reflexivity|]].
  - exact (row_last_column_wins bare_key quoted
             [("Name", "first"); ("name (short)", "second")] "name" eq_refl).
  - exact (row_last_column_wins bare_key quoted
             [("__Proto__", "x")] "__proto__" eq_refl).
Defined.

Lemma row_tagData_fields_witness :
  distinct (keys [("Canonical Name", "water"); ("Category", "Role")]) = true
  /\ NoDup (keys (row_tagData [("Canonical Name", "water"); ("Category", "Role")]))
  /\ In "canonical_name"
        (keys (row_tagData [("Canonical Name", "water"); ("Category", "Role")]))
  /\ exists x, VStr "Role" = VStr x.
Proof.
  destruct (row_tagData_fields bare_key quoted
              [("Canonical Name", "water"); ("Category", "Role")] eq_refl)
    as [Hnd [Hkeys Hvalues]].
  split; [reflexivity|]. split; [exact Hnd|]. split.
  - apply (proj2 (Hkeys "canonical_name")). split; [discriminate|].
    exists "Canonical Name". split; [left; reflexivity | reflexivity].
  - apply (Hvalues "category" (VStr "Role") eq_refl).
Defined.

Lemma csv_one_write_per_row_witness :
  forallb has_category
    (map row_tagData [[("Canonical Name", "water"); ("Category", "Role")]]) = true
  /\ length (written
               (importDemocracyLab bare_key quoted
                  (fun _ => Response
                     (map Data [[("Canonical Name", "water");
                                 ("Category", "Role")]] ++ [End])%list)
                  None)) = 1.
Proof.
  split; [reflexivity|].
  destruct (csv_one_write_per_row bare_key quoted
              (fun _ => Response
                 (map Data [[("Canonical Name", "water");
                             ("Category", "Role")]] ++ [End])%list)
              None
              [[("Canonical Name", "water"); ("Category", "Role")]]
              eq_refl eq_refl) as [_ [_ Hlen]].
  exact Hlen.
Defined.

Lemma csv_row_without_category_witness :
  has_category (row_tagData [("Canonical Name", "air")]) = false
  /\ result (importDemocracyLab bare_key quoted
               (fun _ => Response
                  (map Data ([[("Canonical Name", "water"); ("Category", "Role")]]
                             ++ [("Canonical Name", "air")] :: [])
                   ++ [End])%list)
               None) = Pending
  /\ length (written
               (importDemocracyLab bare_key quoted
                  (fun _ => Response
                     (map Data ([[("Canonical Name", "water"); ("Category", "Role")]]
                                ++ [("Canonical Name", "air")] :: [])
                      ++ [End])%list)
                  None)) = 1.
Proof.
  split; [reflexivity|].
  destruct (csv_row_without_category bare_key quoted
              (fun _ => Response
                 (map Data ([[("Canonical Name", "water"); ("Category", "Role")]]
                            ++ [("Canonical Name", "air")] :: [])
                  ++ [End])%list)
              None
              [[("Canonical Name", "water"); ("Category", "Role")]] []
              [("Canonical Name", "air")]
              eq_refl eq_refl eq_refl) as [Hres [_ Hlen]].
  split; [exact Hres | exact Hlen].
Defined.

Lemma csv_promise_settled_once_witness :
  promise (fold_left (on_event bare_key quoted) [End]
             (mkParsing [] [] (Rejected "bad row"))) = Rejected "bad row"
  /\ result (importDemocracyLab bare_key quoted
               (fun _ => Response
                  (map Data [[("Category", "Role")]]
                   ++ Error "bad row" :: [End])%list)
               None) = Rejected "bad row".
Proof.
  destruct (csv_promise_settled_once bare_key quoted) as [Hstay [_ Hfirst]].
  split.
  - apply (Hstay [End] (mkParsing [] [] (Rejected "bad row"))). discriminate.
  - apply (Hfirst (fun _ => Response
                     (map Data [[("Category", "Role")]]
                      ++ Error "bad row" :: [End])%list)
                  None [[("Category", "Role")]] "bad row" [End] eq_refl).
Defined.

Lemma csv_document_bytes_witness :
  distinct (keys water_row) = true
  /\ serialize bare_key quoted (tag_document water_row)
     = serialize bare_key quoted [("caption", VStr "Water")].
Proof.
  split; [reflexivity|].
  apply (csv_document_bytes bare_key quoted water_row eq_refl).
Defined.

Lemma names_with_one_space_run_witness :
  space_runs (strip_annotation "Canonical Name (unique)") <= 1
  /\ fieldName "Canonical Name (unique)" = "canonical_name"
  /\ has_space (fieldName "Canonical Name (unique)") = false
  /\ space_runs "Health Care(s)" <= 1
  /\ categoryDir "Health Care(s)" = categoryDir_described "Health Care(s)".
Proof.
  destruct names_with_one_space_run as [Hfield Hdir].
  assert (H1 : space_runs (strip_annotation "Canonical Name (unique)") <= 1)
    by (vm_compute; lia).
  assert (H2 : space_runs "Health Care(s)" <= 1) by (vm_compute; lia).
  destruct (Hfield "Canonical Name (unique)" H1) as [Heq Hspace].
  split; [exact H1|]. split; [reflexivity|]. split; [exact Hspace|].
  split; [exact H2 | exact (Hdir "Health Care(s)" H2)].
Defined.

Lemma fieldName_without_parenthesis_witness :
  no_line_terminator "Priority (1-5)" = true
  /\ has_paren (fieldName "Priority (1-5)") = false.
Proof.
  split; [reflexivity|].
  apply (fieldName_without_parenthesis "Priority (1-5)" eq_refl).
Defined.

Lemma importTaxonomy_failures_witness :
  importTaxonomy bare_key quoted (mkAxios (down _) (down _) (down _))
    "wordpress" None
  = mkRun [] [] (Rejected "Unsupported source type")
  /\ written (importTaxonomy bare_key quoted
                (mkAxios (down _) (down _) (down _)) "democracylab" None) = [].
Proof.
  split.
  - apply (proj1 (importTaxonomy_failures bare_key quoted
                    (mkAxios (down _) (down _) (down _)) "wordpress" None));
      discriminate.
  - destruct (proj2 (importTaxonomy_failures bare_key quoted
                       (mkAxios (down _) (down _) (down _))
                       "democracylab" None)) as [Hw _];
      try (intros url; exists "ECONNREFUSED"; reflexivity).
    exact Hw.
Defined.

Lemma commitRef_is_a_reference_witness :
  "main" <> "HEAD" /\ startsWith "refs/" "main" = false
  /\ commitRef "main" = "refs/heads/main".
Proof.
  assert (H1 : "main" <> "HEAD") by discriminate.
  split; [exact H1|]. split; [reflexivity|].
  apply (proj2 (proj2 (commitRef_is_a_reference "main")) H1 eq_refl).
Defined.
